(** * Table reconciliation of the tRPC router

    The router is the second module held in src/server/_core/llm.ts, lines
    499 to 855; line numbers below are those of that file.

    A shallow embedding of the three LLM-backed table operations
    ([recognizeFromImage], [searchAndFill], [modifyTable]) and of the
    response extraction helper [parseJsonResponse], followed by the
    properties of the specification that concern them.

    Conventions of the embedding.
    - A cell text, a header, a title or a summary is a [string]: the code only
      compares such texts with [===] and tests them for emptiness.
    - The completion text handed to [parseJsonResponse] is a list of UTF-16
      code units ([list N]): the regular expression and [trim] classify code
      units.
    - [x[i]] on an array is the list lookup [x !! i]; [None] is [undefined].
    - A computation that may throw returns an [Outcome]; [await] is
      sequencing.
    - The gateway [invokeLLM], the three prompt builders and [JSON.parse] are
      parameters of the development: every statement holds for whatever they
      return. So is the cast [as T] of [parseJsonResponse<T>]: the parsed
      value is read at the TypeScript type the code gives it, a candidate
      table being a [TableData] (arrays of strings); a value of another shape
      is outside the embedding. *)

From stdpp Require Import base decidable option list list_numbers strings pretty.
From Stdlib Require Import NArith ZArith.

Local Open Scope string_scope.
Local Open Scope list_scope.
Local Set Warnings "-register-all".

(** ** Exceptions and outcomes *)

Inductive Exn : Type :=
  | Error (message : string)
  | SyntaxError
  | TypeError.

Inductive Outcome (A : Type) : Type :=
  | Returned (value : A)
  | Raised (e : Exn).

Arguments Returned {A} value.
Arguments Raised {A} e.

Definition bind {A B} (m : Outcome A) (k : A -> Outcome B) : Outcome B :=
  match m with
  | Returned a => k a
  | Raised e => Raised e
  end.

Notation "'do' x <- m ; k" := (bind m (fun x => k))
  (at level 10, x name, m at level 100, k at level 200).

(** [try { body } catch (e) { handler }] *)
Definition try_catch {A} (body : Outcome A) (handler : Exn -> Outcome A) : Outcome A :=
  match body with
  | Returned a => Returned a
  | Raised e => handler e
  end.

(** The results of the callbacks of an [Array.prototype.map] whose callback
    may throw: the first exception, in index order, ends the map. *)
Fixpoint collect {A} (l : list (Outcome A)) : Outcome (list A) :=
  match l with
  | [] => Returned []
  | Returned a :: l' => do r <- collect l'; Returned (a :: r)
  | Raised e :: _ => Raised e
  end.

(** ** Data model ([shared/types.ts]) *)

Record TableData : Type := mkTable {
  headers : list string;
  rows : list (list string)
}.

(** ** JavaScript values of type [string | undefined] *)

(** Truthiness: [undefined] and the empty string are falsy. *)
Definition truthy (v : option string) : bool :=
  match v with
  | Some s => bool_decide (s <> "")
  | None => false
  end.

(** [a || b] where both sides are [string | undefined]. *)
Definition js_or (a b : option string) : option string :=
  if truthy a then a else b.

(** [a || ''] *)
Definition or_empty (a : option string) : string :=
  match js_or a (Some "") with
  | Some s => s
  | None => ""
  end.

(** ** Row repairs of [searchAndFill] and [modifyTable] *)

(** The shared column-count repair (llm.ts 738-751 and 826-838), for one row
    [row] at an index whose original row is [originalRow]
    ([tableData.rows[idx] || []]). *)
Definition normalizeRow (expectedCols : nat) (originalRow row : list string) : list string :=
  if decide (length row < expectedCols) then
    row ++ ((fun i => or_empty (originalRow !! i)) <$> seq (length row) (expectedCols - length row))
  else if decide (expectedCols < length row) then
    take expectedCols row
  else row.

(** [tableData.rows[idx] || []] *)
Definition row_or_nil (origRows : list (list string)) (idx : nat) : list string :=
  default [] (origRows !! idx).

Definition normalizeRows (expectedCols : nat) (origRows rows : list (list string))
  : list (list string) :=
  imap (fun idx row => normalizeRow expectedCols (row_or_nil origRows idx) row) rows.

(** [matchedRow[matchedRow.length - 1]]: index [-1] of an empty row reads
    [undefined]. *)
Definition last_cell (matchedRow : list string) : option string :=
  match matchedRow with
  | [] => None
  | _ => matchedRow !! (length matchedRow - 1)
  end.

(** [result[result.length - 1] = v]. On an empty [result] the index is [-1]:
    the assignment creates a property and writes no element. The value is
    [undefined] only when the matched row is empty, and then the original row
    is empty as well (lemma [matched_last_cell_defined]), so the last case
    does not arise inside [realignRow]. *)
Definition assign_last (result : list string) (v : option string) : list string :=
  match result, v with
  | [], _ => []
  | _ :: _, Some s => <[length result - 1 := s]> result
  | _ :: _, None => result
  end.

(** [newRow[0] === originalRow[0]] *)
Definition same_key (originalRow newRow : list string) : Prop :=
  newRow !! 0 = originalRow !! 0.

#[global] Instance same_key_dec originalRow newRow : Decision (same_key originalRow newRow).
Proof. unfold same_key. apply _. Defined.

(** [rows.find(newRow => newRow[0] === originalRow[0])] *)
Definition find_match (candRows : list (list string)) (originalRow : list string)
  : option (list string) :=
  snd <$> list_find (same_key originalRow) candRows.

(** The callback of llm.ts 699-713 (row counts differ). *)
Definition realignRow (headerCount : nat) (candRows : list (list string))
    (originalRow : list string) : list string :=
  match find_match candRows originalRow with
  | Some matchedRow =>
      let result := originalRow in
      if decide (headerCount <= length matchedRow) then
        assign_last result (last_cell matchedRow)
      else result
  | None => originalRow
  end.

(** One cell of the loop of llm.ts 721-732 (row counts equal). *)
Definition mergeCell (headerCount : nat) (originalRow newRow : list string) (col : nat) : string :=
  if decide (col = 0) then
    or_empty (originalRow !! col)
  else if decide (col < headerCount - 1) then
    or_empty (js_or (originalRow !! col) (newRow !! col))
  else
    or_empty (js_or (newRow !! col) (originalRow !! col)).

(** The callback of llm.ts 717-734. [originalRow] is [tableData.rows[idx]]:
    when it is [undefined] the first iteration of the loop reads
    [originalRow[0]] and throws a [TypeError]. *)
Definition mergeRow (headerCount : nat) (originalRow : option (list string))
    (newRow : list string) : Outcome (list string) :=
  match originalRow with
  | Some o => Returned (mergeCell headerCount o newRow <$> seq 0 headerCount)
  | None => if decide (headerCount = 0) then Returned [] else Raised TypeError
  end.

(** ** Response extraction (llm.ts 514-519) *)

(** A text is its sequence of UTF-16 code units. *)
Abbreviation jstext := (list N).

(** The code units of an ASCII literal. *)
Fixpoint units (s : string) : jstext :=
  match s with
  | EmptyString => []
  | String c s' => Ascii.N_of_ascii c :: units s'
  end.

Definition backtick : N := 96%N.
Definition dquote : N := 34%N.
Definition fence : jstext := [backtick; backtick; backtick].
Definition json_tag : jstext := units "json".

(** The class [\s] of a regular expression, which is also what [trim]
    removes: WhiteSpace and LineTerminator of ECMAScript. *)
Definition is_space (c : N) : bool :=
  match c with
  | 9 | 10 | 11 | 12 | 13 | 32 | 160 | 5760 | 8232 | 8233 | 8239 | 8287
  | 12288 | 65279 => true
  | _ => (8192 <=? c)%N && (c <=? 8202)%N
  end%N.

Fixpoint skip_spaces (s : jstext) : jstext :=
  match s with
  | c :: s' => if is_space c then skip_spaces s' else s
  | [] => []
  end.

(** [String.prototype.trim] *)
Definition trim (s : jstext) : jstext :=
  reverse (skip_spaces (reverse (skip_spaces s))).

(** [strip_prefix p s] is [Some r] when [s = p ++ r]. *)
Fixpoint strip_prefix (p s : jstext) : option jstext :=
  match p, s with
  | [], _ => Some s
  | a :: p', b :: s' => if decide (a = b) then strip_prefix p' s' else None
  | _ :: _, [] => None
  end.

(** The leftmost occurrence of the fence: the text before it and the text
    after it. *)
Fixpoint find_fence (s : jstext) : option (jstext * jstext) :=
  match strip_prefix fence s with
  | Some rest => Some ([], rest)
  | None =>
      match s with
      | [] => None
      | c :: s' =>
          match find_fence s' with
          | Some (before, rest) => Some (c :: before, rest)
          | None => None
          end
      end
  end.

(** The regular expressions that the source's pattern is made of. *)
Inductive Pattern : Type :=
  | Chars (s : jstext)
  | Optional (p : Pattern)
  | Spaces
  | LazyGroup
  | Then (p q : Pattern).

(** Three backticks, [(?:json)?], [\s*], the group [([\s\S]*?)], three
    backticks. *)
Definition fencePattern : Pattern :=
  Then (Chars fence)
    (Then (Optional (Chars json_tag))
       (Then Spaces
          (Then LazyGroup (Chars fence)))).

(** A backtracking matcher in continuation style: [k] matches what follows
    the pattern, and a failure of [k] makes the pattern try its next
    alternative. *)
Section Matcher.
Context {A : Type}.

(** [\s*], greedy: as many spaces as possible first, then fewer. *)
Fixpoint spaces_greedy (k : jstext -> option A) (s : jstext) : option A :=
  match s with
  | c :: s' =>
      if is_space c then
        match spaces_greedy k s' with
        | Some x => Some x
        | None => k s
        end
      else k s
  | [] => k s
  end.

(** [([\s\S]*?)], lazy: as few characters as possible first, then more.
    [taken] holds the characters taken so far, last one first. *)
Fixpoint any_lazy (k : jstext -> jstext -> option A) (taken s : jstext) : option A :=
  match k (reverse taken) s with
  | Some x => Some x
  | None =>
      match s with
      | c :: s' => any_lazy k (c :: taken) s'
      | [] => None
      end
  end.

(** [backtrack p s group1 k]: match [p] at the start of [s], then [k] on the
    rest of the text and the content of group 1. *)
Fixpoint backtrack (p : Pattern) (s group1 : jstext)
    (k : jstext -> jstext -> option A) : option A :=
  match p with
  | Chars l =>
      match strip_prefix l s with
      | Some rest => k rest group1
      | None => None
      end
  | Optional q =>
      match backtrack q s group1 k with
      | Some x => Some x
      | None => k s group1
      end
  | Spaces => spaces_greedy (fun rest => k rest group1) s
  | LazyGroup => any_lazy (fun group rest => k rest group) [] s
  | Then q r => backtrack q s group1 (fun rest group => backtrack r rest group k)
  end.
End Matcher.

(** Group 1 of a match that starts at the first character of [s]. *)
Definition match_at (p : Pattern) (s : jstext) : option jstext :=
  backtrack p s [] (fun _ group1 => Some group1).

(** [content.match(p)], group 1 of the match: the leftmost position at which
    the pattern matches. *)
Fixpoint first_match (p : Pattern) (s : jstext) : option jstext :=
  match match_at p s with
  | Some group1 => Some group1
  | None =>
      match s with
      | [] => None
      | _ :: s' => first_match p s'
      end
  end.

(** [jsonMatch ? jsonMatch[1].trim() : content.trim()] *)
Definition jsonStr (content : jstext) : jstext :=
  match first_match fencePattern content with
  | Some group1 => trim group1
  | None => trim content
  end.

(** The match of [fencePattern] in closed form (lemma
    [first_match_fencePattern]): it starts at the leftmost fence, skips the
    tag and the spaces, and its group ends at the first fence that follows. *)
Definition match_fenced (content : jstext) : option jstext :=
  match find_fence content with
  | None => None
  | Some (_, after) =>
      let after_tag := default after (strip_prefix json_tag after) in
      match find_fence (skip_spaces after_tag) with
      | Some (group1, _) => Some group1
      | None => None
      end
  end.

(** ** The gateway's result (llm.ts, [InvokeResult]) *)

Inductive MessageContent : Type :=
  | ContentText (text : jstext)
  | ContentParts.

Record Choice : Type := mkChoice { message_content : MessageContent }.

Record InvokeResult : Type := mkInvokeResult { choices : list Choice }.

(** [result.choices[0]?.message?.content], kept only when it passes the guard
    [!responseContent || typeof responseContent !== 'string']: a non-empty
    string. *)
Definition responseContent (result : InvokeResult) : option jstext :=
  match choices result !! 0 with
  | Some c =>
      match message_content c with
      | ContentText text => if decide (text = []) then None else Some text
      | ContentParts => None
      end
  | None => None
  end.

(** ** What the operations parse and return

    The three objects have a [tableData] field: it is [recognized], [filled]
    and [modified] here, one name per record. The object parsed from the
    completion has the fields of the object returned, so one record serves
    for both. *)

Record RecognizeResult : Type := mkRecognize {
  title : option string;
  recognized : TableData
}.

Record SearchResult : Type := mkSearch {
  filled : TableData;
  searchSummary : option string
}.

Record ModifyResult : Type := mkModify {
  modified : TableData;
  explanation : option string
}.

Definition fallbackTable : TableData :=
  mkTable ["列1"; "列2"; "列3"] [["无法识别"; ""; ""]].

Definition fallbackRecognition : RecognizeResult :=
  mkRecognize (Some "识别的表格") fallbackTable.

Definition failureText : string := "处理失败，请重试".

(** ** The three operations (llm.ts 537-851) *)

Section Operations.
(** [JSON.parse], and the casts [as T] of [parseJsonResponse<T>]: the parsed
    value read at the type the caller asked for, without any check. *)
Context {JSValue : Type}.
Variable JSON_parse : jstext -> Outcome JSValue.
Variable as_Recognize : JSValue -> RecognizeResult.
Variable as_Search : JSValue -> SearchResult.
Variable as_Modify : JSValue -> ModifyResult.

(** The gateway and the prompts sent to it. *)
Context {InvokeParams : Type}.
Variable invokeLLM : InvokeParams -> Outcome InvokeResult.
Variable recognizePrompt : string -> option string -> InvokeParams.
Variable searchPrompt : TableData -> string -> InvokeParams.
Variable modifyPrompt : TableData -> string -> InvokeParams.

Definition parseJsonResponse {T} (cast : JSValue -> T) (content : jstext) : Outcome T :=
  do v <- JSON_parse (jsonStr content);
  Returned (cast v).

(** The guard after the gateway call, common to the three operations. *)
Definition requireContent (result : InvokeResult) : Outcome jstext :=
  match responseContent result with
  | Some content => Returned content
  | None => Raised (Error "Failed to get response from LLM")
  end.

Definition recognizeFromImage (imageBase64 : string) (description : option string)
  : Outcome RecognizeResult :=
  do result <- invokeLLM (recognizePrompt imageBase64 description);
  do content <- requireContent result;
  try_catch
    (do parsed <- parseJsonResponse as_Recognize content;
     Returned (mkRecognize (title parsed) (recognized parsed)))
    (fun _ => Returned fallbackRecognition).

(** Steps 1 to 3 of [searchAndFill] (llm.ts 692-751) on the parsed table. *)
Definition reconcileSearch (tableData parsedTable : TableData) : Outcome TableData :=
  let headerCount := length (headers tableData) in
  do rows1 <-
    (if decide (length (rows parsedTable) <> length (rows tableData)) then
       Returned (realignRow headerCount (rows parsedTable) <$> rows tableData)
     else
       collect (imap (fun idx newRow => mergeRow headerCount (rows tableData !! idx) newRow)
                     (rows parsedTable)));
  Returned (mkTable (headers tableData) (normalizeRows headerCount (rows tableData) rows1)).

Definition searchAndFill (tableData : TableData) (instruction : string)
  : Outcome SearchResult :=
  do result <- invokeLLM (searchPrompt tableData instruction);
  do content <- requireContent result;
  try_catch
    (do parsed <- parseJsonResponse as_Search content;
     do table <- reconcileSearch tableData (filled parsed);
     Returned (mkSearch table (searchSummary parsed)))
    (fun _ => Returned (mkSearch tableData (Some failureText))).

(** The repair of [modifyTable] (llm.ts 824-838) on the parsed table. *)
Definition reconcileModify (tableData parsedTable : TableData) : TableData :=
  let expectedCols := length (headers parsedTable) in
  mkTable (headers parsedTable)
          (normalizeRows expectedCols (rows tableData) (rows parsedTable)).

Definition modifyTable (tableData : TableData) (instruction : string)
  : Outcome ModifyResult :=
  do result <- invokeLLM (modifyPrompt tableData instruction);
  do content <- requireContent result;
  try_catch
    (do parsed <- parseJsonResponse as_Modify content;
     Returned (mkModify (reconcileModify tableData (modified parsed)) (explanation parsed)))
    (fun _ => Returned (mkModify tableData (Some failureText))).
End Operations.

(** ** The table editor (components/table-editor.tsx 34-92)

    The callbacks of [TableEditor] on the table they close over. A callback
    hands the new table to [onTableChange] or returns without calling it. *)

(** [l.filter((_, j) => keep j)], the first element of [l] having index [i]. *)
Fixpoint filter_index {A} (keep : nat -> bool) (i : nat) (l : list A) : list A :=
  match l with
  | [] => []
  | x :: l' =>
      if keep i then x :: filter_index keep (S i) l' else filter_index keep (S i) l'
  end.

(** [l.map((x, j) => j === index ? v : x)] *)
Definition replace_index {A} (index : nat) (v : A) (l : list A) : list A :=
  imap (fun j x => if decide (j = index) then v else x) l.

Definition addRow (tableData : TableData) : TableData :=
  let newRow := replicate (length (headers tableData)) "" in
  mkTable (headers tableData) (rows tableData ++ [newRow]).

(** The header given to a new column, [n] being the new column count. *)
Definition columnLabel (n : nat) : string :=
  String.append "列" (pretty n).

Definition addColumn (tableData : TableData) : TableData :=
  mkTable (headers tableData ++ [columnLabel (length (headers tableData) + 1)])
          ((fun row => row ++ [""]) <$> rows tableData).

(** [None]: the callback returns without calling [onTableChange]. *)
Definition deleteRow (index : nat) (tableData : TableData) : option TableData :=
  if decide (length (rows tableData) <= 1) then None
  else Some (mkTable (headers tableData)
               (filter_index (fun i => bool_decide (i <> index)) 0 (rows tableData))).

Definition deleteColumn (index : nat) (tableData : TableData) : option TableData :=
  if decide (length (headers tableData) <= 1) then None
  else Some (mkTable
               (filter_index (fun i => bool_decide (i <> index)) 0 (headers tableData))
               ((fun row => filter_index (fun i => bool_decide (i <> index)) 0 row)
                  <$> rows tableData)).

(** The cell being edited, its row being [-1] for a header, and the text
    typed so far. *)
Record EditorState : Type := mkEditor {
  editingCell : option (Z * nat);
  editValue : string
}.

Definition handleCellPress (editable : bool) (row : Z) (col : nat) (value : string)
    (st : EditorState) : EditorState :=
  if editable then mkEditor (Some (row, col)) value else st.

(** What [handleCellBlur] does to the table. [newHeaders[col] = editValue]
    replaces a header, appends one when [col] is the header count, and beyond
    that leaves holes in the array: such headers are no [string[]] and stand
    outside the embedding ([SparseHeaders]). *)
Inductive Change : Type :=
  | Unchanged
  | Changed (tableData : TableData)
  | SparseHeaders.

Definition handleCellBlur (st : EditorState) (tableData : TableData)
  : EditorState * Change :=
  match editingCell st with
  | None => (st, Unchanged)
  | Some (row, col) =>
      let change :=
        if decide (row = (-1)%Z) then
          if decide (col < length (headers tableData)) then
            Changed (mkTable (<[col := editValue st]> (headers tableData)) (rows tableData))
          else if decide (col = length (headers tableData)) then
            Changed (mkTable (headers tableData ++ [editValue st]) (rows tableData))
          else SparseHeaders
        else
          Changed (mkTable (headers tableData)
                     (imap (fun i r => if decide (Z.of_nat i = row)
                                       then replace_index col (editValue st) r
                                       else r)
                           (rows tableData)))
      in
      (mkEditor None "", change)
  end.

(** ** The document store (hooks/use-documents.ts)

    The callbacks of [useDocuments] on the list [documents] they close over.
    Each returns its result and the list the hook holds afterwards. The
    identifier and the time stamp come from the clock and the random source:
    they are arguments here. [setItem] is the write to the device storage,
    which may throw. *)

Record Document : Type := mkDocument {
  doc_id : string;
  doc_title : string;
  doc_description : option string;
  doc_tableData : TableData;
  createdAt : string;
  updatedAt : string
}.

(** [Partial<Pick<Document, 'title' | 'description' | 'tableData'>>]: a key
    is absent ([None]) or holds a value of the field's type. *)
Record Updates : Type := mkUpdates {
  new_title : option string;
  new_description : option (option string);
  new_tableData : option TableData
}.

Section DocumentStore.
Variable setItem : list Document -> Outcome unit.

(** The write is inside a [try]: when it throws, the error is logged and the
    list is not replaced. *)
Definition saveDocuments (docs documents : list Document) : list Document :=
  match setItem docs with
  | Returned _ => docs
  | Raised _ => documents
  end.

Definition createDocument (id now title : string) (tableData : TableData)
    (description : option string) (documents : list Document)
  : Document * list Document :=
  let newDoc := mkDocument id title description tableData now now in
  let newDocs := newDoc :: documents in
  (newDoc, saveDocuments newDocs documents).

(** [{ ...documents[index], ...updates, updatedAt: now }] *)
Definition applyUpdates (doc : Document) (updates : Updates) (now : string) : Document :=
  mkDocument (doc_id doc)
    (default (doc_title doc) (new_title updates))
    (default (doc_description doc) (new_description updates))
    (default (doc_tableData doc) (new_tableData updates))
    (createdAt doc)
    now.

Definition updateDocument (id : string) (updates : Updates) (now : string)
    (documents : list Document) : option Document * list Document :=
  match list_find (fun doc => doc_id doc = id) documents with
  | None => (None, documents)
  | Some (index, doc) =>
      let updatedDoc := applyUpdates doc updates now in
      let newDocs := <[index := updatedDoc]> documents in
      (Some updatedDoc, saveDocuments newDocs documents)
  end.

Definition deleteDocument (id : string) (documents : list Document)
  : bool * list Document :=
  let newDocs := filter (fun doc => doc_id doc <> id) documents in
  if decide (length newDocs = length documents) then (false, documents)
  else (true, saveDocuments newDocs documents).
End DocumentStore.

Definition getDocument (id : string) (documents : list Document) : option Document :=
  snd <$> list_find (fun doc => doc_id doc = id) documents.

(** ** The gateway (llm.ts 1-498)

    Texts that the gateway only passes on are [string]s; a text that a
    regular expression or [trim] inspects (an image URL, the configured
    endpoint) and the completion text are code units. Numbers are integers.
    [JSValue] stands for a JSON object that is passed on unread (a tool's
    parameters, a schema). *)

Inductive Role : Type :=
  | RoleSystem
  | RoleUser
  | RoleAssistant
  | RoleTool
  | RoleFunction.

Inductive Detail : Type :=
  | DetailAuto
  | DetailLow
  | DetailHigh.

(** [TextContent | ImageContent | FileContent] *)
Inductive ContentPart : Type :=
  | PartText (text : string)
  | PartImage (url : jstext) (detail : option Detail)
  | PartFile (url : jstext) (mime_type : option string).

(** [MessageContent]: a string or a part. *)
Inductive ContentItem : Type :=
  | ItemString (s : string)
  | ItemPart (part : ContentPart).

(** [MessageContent | MessageContent[]] *)
Inductive Content : Type :=
  | One (item : ContentItem)
  | Many (items : list ContentItem).

Record Message : Type := mkMessage {
  msg_role : Role;
  msg_content : Content;
  msg_name : option string;
  tool_call_id : option string
}.

Inductive GeminiPart : Type :=
  | GText (text : string)
  | GInlineData (mimeType data : jstext).

Inductive GeminiRole : Type :=
  | GeminiUser
  | GeminiModel.

Record GeminiContent : Type := mkGeminiContent {
  gemini_role : GeminiRole;
  gemini_parts : list GeminiPart
}.

Definition ensureArray (value : Content) : list ContentItem :=
  match value with
  | One item => [item]
  | Many items => items
  end.

(** The final [throw] of the source needs a value outside [MessageContent]. *)
Definition normalizeContentPart (part : ContentItem) : ContentPart :=
  match part with
  | ItemString s => PartText s
  | ItemPart p => p
  end.

(** *** [extractBase64Image] (llm.ts 202-223) *)

(** What [.] does not match. *)
Definition is_line_terminator (c : N) : bool :=
  (c =? 10)%N || (c =? 13)%N || (c =? 8232)%N || (c =? 8233)%N.

Section UrlMatcher.
Context {A : Type}.

Definition chars (l : jstext) (k : jstext -> option A) (s : jstext) : option A :=
  match strip_prefix l s with
  | Some rest => k rest
  | None => None
  end.

(** [(.+?)]: one character, then as few more as possible. *)
Fixpoint dots_lazy (k : jstext -> jstext -> option A) (taken s : jstext) : option A :=
  match s with
  | c :: s' =>
      if is_line_terminator c then None
      else match k (reverse (c :: taken)) s' with
           | Some x => Some x
           | None => dots_lazy k (c :: taken) s'
           end
  | [] => None
  end.

(** [.*], as many characters as possible first. *)
Fixpoint dots_star_greedy (k : jstext -> jstext -> option A) (taken s : jstext) : option A :=
  match s with
  | c :: s' =>
      if is_line_terminator c then k (reverse taken) s
      else match dots_star_greedy k (c :: taken) s' with
           | Some x => Some x
           | None => k (reverse taken) s
           end
  | [] => k (reverse taken) s
  end.

(** [(.+)] *)
Definition dots_greedy (k : jstext -> jstext -> option A) (s : jstext) : option A :=
  match s with
  | c :: s' => if is_line_terminator c then None else dots_star_greedy k [c] s'
  | [] => None
  end.

(** [$], which without the [m] flag is the end of the text. *)
Definition at_end (x : A) (s : jstext) : option A :=
  match s with
  | [] => Some x
  | _ :: _ => None
  end.
End UrlMatcher.

(** The rest of the pattern of a data URL once group 1 is chosen:
    [;base64,(.+)$]. *)
Definition after_mime (mime rest : jstext) : option (jstext * jstext) :=
  chars (units ";base64,")
    (dots_greedy (fun data rest' => at_end (mime, data) rest')) rest.

(** [url.match(/^data:(.+?);base64,(.+)$/)], groups 1 and 2. The pattern
    starts with [^]: it can only match at the start of the text. *)
Definition dataUrlMatch (url : jstext) : option (jstext * jstext) :=
  chars (units "data:") (dots_lazy after_mime []) url.

(** [url.match(/^base64,(.+)$/)], group 1. *)
Definition base64Match (url : jstext) : option jstext :=
  chars (units "base64,") (dots_greedy (fun data rest => at_end data rest)) url.

Definition extractBase64Image (url : jstext) : jstext * jstext :=
  match dataUrlMatch url with
  | Some (mimeType, data) => (mimeType, data)
  | None =>
      match base64Match url with
      | Some data => (units "image/jpeg", data)
      | None => (units "image/jpeg", url)
      end
  end.

(** *** Messages for Gemini (llm.ts 225-285) *)

Definition normalizeGeminiPart (part : ContentPart) : Outcome GeminiPart :=
  match part with
  | PartText text => Returned (GText text)
  | PartImage url _ =>
      let (mimeType, data) := extractBase64Image url in
      Returned (GInlineData mimeType data)
  | PartFile _ _ => Raised (Error "Unsupported Gemini content part")
  end.

Definition normalizeGeminiParts (content : Content) : Outcome (list GeminiPart) :=
  let parts := normalizeContentPart <$> ensureArray content in
  collect (normalizeGeminiPart <$> parts).

Definition normalizeGeminiMessage (message : Message) : Outcome GeminiContent :=
  let role := match msg_role message with
              | RoleAssistant => GeminiModel
              | _ => GeminiUser
              end in
  do parts <- normalizeGeminiParts (msg_content message);
  Returned (mkGeminiContent role parts).

(** [l.join(sep)] *)
Fixpoint join (sep : string) (l : list string) : string :=
  match l with
  | [] => ""
  | [x] => x
  | x :: l' => String.append x (String.append sep (join sep l'))
  end.

Definition line_feed : string := String (Ascii.ascii_of_nat 10) EmptyString.

Section Split.
(** [JSON.stringify] of a part of a tool message. *)
Variable stringify : ContentPart -> string.

Definition serializeContent (content : Content) : string :=
  join line_feed
    ((fun part => match part with
                  | ItemString s => s
                  | ItemPart p => stringify p
                  end) <$> ensureArray content).

(** One turn of the loop of [splitGeminiMessages] on the two arrays it
    fills. *)
Definition splitStep (acc : list GeminiPart * list GeminiContent) (message : Message)
  : Outcome (list GeminiPart * list GeminiContent) :=
  let (systemParts, contents) := acc in
  match msg_role message with
  | RoleSystem =>
      do parts <- normalizeGeminiParts (msg_content message);
      Returned (systemParts ++ parts, contents)
  | RoleTool | RoleFunction =>
      let serialized := serializeContent (msg_content message) in
      Returned (systemParts, contents ++ [mkGeminiContent GeminiUser [GText serialized]])
  | _ =>
      do c <- normalizeGeminiMessage message;
      Returned (systemParts, contents ++ [c])
  end.

Fixpoint splitLoop (acc : list GeminiPart * list GeminiContent) (messages : list Message)
  : Outcome (list GeminiPart * list GeminiContent) :=
  match messages with
  | [] => Returned acc
  | message :: rest => do acc' <- splitStep acc message; splitLoop acc' rest
  end.

(** The system instruction, when there is one, and the contents. *)
Definition splitGeminiMessages (messages : list Message)
  : Outcome (option (list GeminiPart) * list GeminiContent) :=
  do acc <- splitLoop ([], []) messages;
  let (systemParts, contents) := acc in
  Returned (if decide (0 < length systemParts) then Some systemParts else None, contents).
End Split.

(** *** Tools and response formats (llm.ts 287-373) *)

Section Gateway.
Context {JSValue : Type}.

Record Tool : Type := mkTool {
  tool_name : string;
  tool_description : option string;
  tool_parameters : option JSValue
}.

Inductive ToolChoice : Type :=
  | ChoiceNone
  | ChoiceAuto
  | ChoiceRequired
  | ChoiceByName (name : string)
  | ChoiceExplicit (name : string).

(** ["none" | "auto" | ToolChoiceExplicit] *)
Inductive NormalizedToolChoice : Type :=
  | NormalizedNone
  | NormalizedAuto
  | NormalizedExplicit (name : string).

Definition normalizeToolChoice (toolChoice : option ToolChoice) (tools : option (list Tool))
  : Outcome (option NormalizedToolChoice) :=
  match toolChoice with
  | None => Returned None
  | Some ChoiceNone => Returned (Some NormalizedNone)
  | Some ChoiceAuto => Returned (Some NormalizedAuto)
  | Some ChoiceRequired =>
      match tools with
      | None | Some [] =>
          Raised (Error "tool_choice 'required' was provided but no tools were configured")
      | Some [tool] => Returned (Some (NormalizedExplicit (tool_name tool)))
      | Some (_ :: _ :: _) =>
          Raised (Error
            "tool_choice 'required' needs a single tool or specify the tool name explicitly")
      end
  | Some (ChoiceByName name) => Returned (Some (NormalizedExplicit name))
  | Some (ChoiceExplicit name) => Returned (Some (NormalizedExplicit name))
  end.

(** [JsonSchema]. The source checks that [schema] is there, against its own
    type: the field may be missing here. *)
Record JsonSchema : Type := mkJsonSchema {
  schema_name : string;
  schema : option JSValue;
  strict : option bool
}.

Inductive ResponseFormat : Type :=
  | FormatText
  | FormatJsonObject
  | FormatJsonSchema (json_schema : option JsonSchema).

(** [a || b] on two optional objects. *)
Definition or_else {A} (a b : option A) : option A :=
  match a with
  | Some x => Some x
  | None => b
  end.

Definition normalizeResponseFormat (responseFormat response_format : option ResponseFormat)
    (outputSchema output_schema : option JsonSchema) : Outcome (option ResponseFormat) :=
  match or_else responseFormat response_format with
  | Some explicitFormat =>
      match explicitFormat with
      | FormatJsonSchema js =>
          match js ≫= schema with
          | Some _ => Returned (Some explicitFormat)
          | None => Raised (Error "responseFormat json_schema requires a defined schema object")
          end
      | _ => Returned (Some explicitFormat)
      end
  | None =>
      match or_else outputSchema output_schema with
      | None => Returned None
      | Some s =>
          if decide (schema_name s = "") then
            Raised (Error "outputSchema requires both name and schema")
          else
            match schema s with
            | None => Raised (Error "outputSchema requires both name and schema")
            | Some body =>
                Returned (Some (FormatJsonSchema
                  (Some (mkJsonSchema (schema_name s) (Some body) (strict s)))))
            end
      end
  end.

(** *** [invokeLLM] (llm.ts 320-333 and 375-498) *)

(** The two variables of [ENV] that the gateway reads. *)
Record Env : Type := mkEnv {
  geminiApiKey : option jstext;
  geminiApiUrl : option jstext
}.

Definition defaultApiUrl : jstext :=
  units "https://generativelanguage.googleapis.com/v1beta/models/gemini-2.0-flash:generateContent".

Definition resolveApiUrl (env : Env) : jstext :=
  match geminiApiUrl env with
  | Some url =>
      if decide (url <> [] /\ 0 < length (trim url)) then trim url else defaultApiUrl
  | None => defaultApiUrl
  end.

(** [assertApiKey]: the key when it is set and not empty. *)
Definition assertApiKey (env : Env) : Outcome jstext :=
  match geminiApiKey env with
  | Some key => if decide (key = []) then Raised (Error "GEMINI_API_KEY is not configured")
                else Returned key
  | None => Raised (Error "GEMINI_API_KEY is not configured")
  end.

Record InvokeParams : Type := mkInvokeParams {
  messages : list Message;
  tools : option (list Tool);
  toolChoice : option ToolChoice;
  tool_choice : option ToolChoice;
  maxTokens : option Z;
  max_tokens : option Z;
  outputSchema : option JsonSchema;
  output_schema : option JsonSchema;
  responseFormat : option ResponseFormat;
  response_format : option ResponseFormat
}.

Inductive Mode : Type :=
  | ModeNone
  | ModeAuto
  | ModeAny.

Record ToolConfig : Type := mkToolConfig {
  mode : Mode;
  allowedFunctionNames : option (list string)
}.

Record GenerationConfig : Type := mkGenerationConfig {
  maxOutputTokens : Z;
  responseMimeType : option string;
  responseSchema : option JSValue
}.

(** The request body, before [JSON.stringify]. [functionDeclarations] is the
    content of the one element of [payload.tools]. *)
Record Payload : Type := mkPayload {
  contents : list GeminiContent;
  generationConfig : GenerationConfig;
  systemInstruction : option (list GeminiPart);
  functionDeclarations : option (list Tool);
  toolConfig : option ToolConfig
}.

(** The call to [fetch]: always a POST of JSON, to [request_url], with the
    key in the [x-goog-api-key] header. *)
Record Request : Type := mkRequest {
  request_url : jstext;
  request_key : jstext;
  request_body : Payload
}.

(** [GeminiResponse] *)
Record CandidatePart : Type := mkCandidatePart { part_text : option jstext }.

Record CandidateContent : Type := mkCandidateContent {
  candidate_role : option string;
  candidate_parts : option (list CandidatePart)
}.

Record Candidate : Type := mkCandidate {
  candidate_content : option CandidateContent;
  finishReason : option string
}.

Record UsageMetadata : Type := mkUsageMetadata {
  promptTokenCount : option Z;
  candidatesTokenCount : option Z;
  totalTokenCount : option Z
}.

Record GeminiResponse : Type := mkGeminiResponse {
  candidates : option (list Candidate);
  usageMetadata : option UsageMetadata
}.

(** What [fetch] resolves to: [response_text] and [response_json] are the
    results of [response.text()] and of [response.json()], the latter read
    as a [GeminiResponse]. *)
Record Response : Type := mkResponse {
  ok : bool;
  status : N;
  statusText : string;
  response_text : Outcome string;
  response_json : Outcome GeminiResponse
}.

(** The whole of [InvokeResult]; the router reads [message.content] of its
    choices ([asInvokeResult]). *)
Record GatewayChoice : Type := mkGatewayChoice {
  index : nat;
  choice_role : Role;
  choice_content : jstext;
  finish_reason : option string
}.

Record Usage : Type := mkUsage {
  prompt_tokens : Z;
  completion_tokens : Z;
  total_tokens : Z
}.

Record GatewayResult : Type := mkGatewayResult {
  result_id : string;
  created : Z;
  model : string;
  gateway_choices : list GatewayChoice;
  usage : option Usage
}.

Definition asInvokeResult (result : GatewayResult) : InvokeResult :=
  mkInvokeResult ((fun c => mkChoice (ContentText (choice_content c)))
                    <$> gateway_choices result).

(** [candidate.content?.parts?.map((part) => part.text ?? "").join("") ?? ""] *)
Definition candidateText (candidate : Candidate) : jstext :=
  match candidate_content candidate ≫= candidate_parts with
  | Some parts => concat ((fun part => default [] (part_text part)) <$> parts)
  | None => []
  end.

Definition gatewayChoices (data : GeminiResponse) : list GatewayChoice :=
  match candidates data with
  | Some cs =>
      imap (fun index candidate =>
              mkGatewayChoice index RoleAssistant (candidateText candidate)
                              (finishReason candidate))
           cs
  | None => []
  end.

Definition gatewayUsage (data : GeminiResponse) : option Usage :=
  match usageMetadata data with
  | Some u => Some (mkUsage (default 0%Z (promptTokenCount u))
                            (default 0%Z (candidatesTokenCount u))
                            (default 0%Z (totalTokenCount u)))
  | None => None
  end.

Definition toolConfigOf (choice : NormalizedToolChoice) : ToolConfig :=
  match choice with
  | NormalizedNone => mkToolConfig ModeNone None
  | NormalizedAuto => mkToolConfig ModeAuto None
  | NormalizedExplicit name => mkToolConfig ModeAny (Some [name])
  end.

(** The generation configuration once the response format is known. *)
Definition generationConfigOf (resolvedMaxTokens : Z) (format : option ResponseFormat)
  : GenerationConfig :=
  match format with
  | None => mkGenerationConfig resolvedMaxTokens None None
  | Some FormatText => mkGenerationConfig resolvedMaxTokens (Some "text/plain") None
  | Some FormatJsonObject => mkGenerationConfig resolvedMaxTokens (Some "application/json") None
  | Some (FormatJsonSchema js) =>
      mkGenerationConfig resolvedMaxTokens (Some "application/json") (js ≫= schema)
  end.

(** The message of the error thrown on a response that is not [ok]. *)
Definition failureMessage (response : Response) (errorText : string) : string :=
  String.append "LLM invoke failed: "
    (String.append (pretty (status response))
       (String.append " "
          (String.append (statusText response)
             (String.append " â€“ " errorText)))).

Section Invoke.
Variable env : Env.
Variable stringify : ContentPart -> string.
Variable fetch : Request -> Outcome Response.
(** [Date.now()] *)
Variable now : Z.

(** The request that [invokeLLM] sends, or the error thrown before any
    request is sent. *)
Definition buildRequest (params : InvokeParams) : Outcome Request :=
  do key <- assertApiKey env;
  do split <- splitGeminiMessages stringify (messages params);
  let (instruction, contents) := split in
  let resolvedMaxTokens := default (default 32768%Z (max_tokens params)) (maxTokens params) in
  let declarations :=
    match tools params with
    | Some (tool :: rest) => Some (tool :: rest)
    | _ => None
    end in
  do normalizedToolChoice <-
    normalizeToolChoice (or_else (toolChoice params) (tool_choice params)) (tools params);
  do normalizedResponseFormat <-
    normalizeResponseFormat (responseFormat params) (response_format params)
                            (outputSchema params) (output_schema params);
  Returned (mkRequest (resolveApiUrl env) key
              (mkPayload contents
                 (generationConfigOf resolvedMaxTokens normalizedResponseFormat)
                 instruction
                 declarations
                 (toolConfigOf <$> normalizedToolChoice))).

(** What [invokeLLM] makes of the response. *)
Definition readResponse (response : Response) : Outcome GatewayResult :=
  if ok response then
    do data <- response_json response;
    let created := (now / 1000)%Z in
    Returned (mkGatewayResult (String.append "gemini-" (pretty created)) created
                "gemini-2.0-flash" (gatewayChoices data) (gatewayUsage data))
  else
    do errorText <- response_text response;
    Raised (Error (failureMessage response errorText)).

Definition invokeLLM (params : InvokeParams) : Outcome GatewayResult :=
  do request <- buildRequest params;
  do response <- fetch request;
  readResponse response.
End Invoke.
End Gateway.

(** *** The messages of [recognizeFromImage] (llm.ts 571-588) *)

(** The URL that carries the image. *)
Definition imageUrl (imageBase64 : jstext) : jstext :=
  units "data:image/jpeg;base64," ++ imageBase64.

Definition recognizeMessages (systemPrompt userPrompt : string) (imageBase64 : jstext)
  : list Message :=
  [ mkMessage RoleSystem (One (ItemString systemPrompt)) None None;
    mkMessage RoleUser
      (Many [ItemPart (PartText userPrompt);
             ItemPart (PartImage (imageUrl imageBase64) (Some DetailHigh))])
      None None ].

(** The gateway as the router sees it. *)
Definition routerGateway {JSValue : Type} (env : Env) (stringify : ContentPart -> string)
    (fetch : Request -> Outcome (@Response)) (now : Z)
    (params : @InvokeParams JSValue) : Outcome InvokeResult :=
  do result <- invokeLLM env stringify fetch now params;
  Returned (asInvokeResult result).

(** No character of the text is a line terminator. *)
Definition one_line (s : jstext) : Prop :=
  Forall (fun c => is_line_terminator c = false) s.

(** The argument of [invokeLLM] in [recognizeFromImage]: the messages and
    nothing else. *)
Definition recognizeParams {JSValue : Type} (systemPrompt userPrompt : string)
    (imageBase64 : jstext) : @InvokeParams JSValue :=
  mkInvokeParams (recognizeMessages systemPrompt userPrompt imageBase64)
                 None None None None None None None None None.

#[global] Instance Role_eq_dec : EqDecision Role.
Proof. solve_decision. Defined.

(** A file part, which Gemini is not sent. *)
Definition is_file_part (item : ContentItem) : bool :=
  match item with
  | ItemPart (PartFile _ _) => true
  | _ => false
  end.

(** A message whose parts are converted, and one of them is a file. *)
Definition carries_file (message : Message) : bool :=
  match msg_role message with
  | RoleTool | RoleFunction => false
  | _ => existsb is_file_part (ensureArray (msg_content message))
  end.

(** The role that a message which is not a system message gets. *)
Definition sent_as (message : Message) : GeminiRole :=
  match msg_role message with
  | RoleAssistant => GeminiModel
  | _ => GeminiUser
  end.

(** The number of parts that a message which is not a system message gets. *)
Definition sent_parts (message : Message) : nat :=
  match msg_role message with
  | RoleTool | RoleFunction => 1
  | _ => length (ensureArray (msg_content message))
  end.

(** The parts of the system messages, in order. *)
Definition system_items (messages : list Message) : list ContentItem :=
  concat ((fun m => ensureArray (msg_content m))
            <$> filter (fun m => msg_role m = RoleSystem) messages).

Definition unsupported : Exn := Error "Unsupported Gemini content part".

(** The first candidate of an answer has no text, or there is none. *)
Definition no_text (data : GeminiResponse) : Prop :=
  forall c, candidates data ≫= head = Some c -> candidateText c = [].

(** The argument of [invokeLLM] in [searchAndFill] and [modifyTable]: a
    system text and a user text (llm.ts 674-679 and 806-811). *)
Definition chatParams {JSValue : Type} (systemPrompt userPrompt : string)
  : @InvokeParams JSValue :=
  mkInvokeParams [ mkMessage RoleSystem (One (ItemString systemPrompt)) None None;
                   mkMessage RoleUser (One (ItemString userPrompt)) None None ]
                 None None None None None None None None None.

(** ** Fixtures for the examples

    The examples run the operations end to end, from a completion text to the
    returned table. They need a gateway and a [JSON.parse]: the gateway is
    scripted, and [readJson] reads the fragment of JSON that the examples
    use (objects, arrays, strings without escapes, integers, [true],
    [false], [null]). In the examples a JSON text is written with ['] where
    JSON has a double quote ([json]). *)

Inductive Json : Type :=
  | JNull
  | JBool (b : bool)
  | JNumber (z : Z)
  | JString (s : jstext)
  | JArray (items : list Json)
  | JObject (fields : list (jstext * Json)).

Definition json (s : string) : jstext :=
  (fun c => if (c =? 39)%N then dquote else c) <$> units s.

Definition newline : jstext := [10%N].

Definition is_json_space (c : N) : bool :=
  (c =? 32)%N || (c =? 9)%N || (c =? 10)%N || (c =? 13)%N.

Fixpoint skip_json_spaces (s : jstext) : jstext :=
  match s with
  | c :: s' => if is_json_space c then skip_json_spaces s' else s
  | [] => []
  end.

Definition is_digit (c : N) : bool := (48 <=? c)%N && (c <=? 57)%N.

Fixpoint read_digits (acc : Z) (s : jstext) : Z * jstext :=
  match s with
  | c :: s' =>
      if is_digit c then read_digits (10 * acc + (Z.of_N c - 48))%Z s' else (acc, s)
  | [] => (acc, [])
  end.

(** The characters of a string up to its closing quote. *)
Fixpoint read_chars (s : jstext) : option (jstext * jstext) :=
  match s with
  | [] => None
  | c :: s' =>
      if (c =? dquote)%N then Some ([], s')
      else if (c =? 92)%N || (c <? 32)%N then None
      else match read_chars s' with
           | Some (body, rest) => Some (c :: body, rest)
           | None => None
           end
  end.

Definition read_literal (word : string) (v : Json) (s : jstext) : option (Json * jstext) :=
  match strip_prefix (units word) s with
  | Some rest => Some (v, rest)
  | None => None
  end.

Fixpoint read_value (fuel : nat) (s : jstext) : option (Json * jstext) :=
  match fuel with
  | 0 => None
  | S fuel' =>
      match skip_json_spaces s with
      | [] => None
      | c :: rest =>
          if (c =? 123)%N then
            match skip_json_spaces rest with
            | c' :: rest' =>
                if (c' =? 125)%N then Some (JObject [], rest')
                else match read_members fuel' rest with
                     | Some (fields, rest'') => Some (JObject fields, rest'')
                     | None => None
                     end
            | [] => None
            end
          else if (c =? 91)%N then
            match skip_json_spaces rest with
            | c' :: rest' =>
                if (c' =? 93)%N then Some (JArray [], rest')
                else match read_elements fuel' rest with
                     | Some (items, rest'') => Some (JArray items, rest'')
                     | None => None
                     end
            | [] => None
            end
          else if (c =? dquote)%N then
            match read_chars rest with
            | Some (body, rest') => Some (JString body, rest')
            | None => None
            end
          else if (c =? 45)%N then
            match rest with
            | d :: _ =>
                if is_digit d then
                  let (z, rest') := read_digits 0 rest in Some (JNumber (- z), rest')
                else None
            | [] => None
            end
          else if is_digit c then
            let (z, rest') := read_digits 0 (c :: rest) in Some (JNumber z, rest')
          else if (c =? 116)%N then read_literal "true" (JBool true) (c :: rest)
          else if (c =? 102)%N then read_literal "false" (JBool false) (c :: rest)
          else if (c =? 110)%N then read_literal "null" JNull (c :: rest)
          else None
      end
  end
with read_elements (fuel : nat) (s : jstext) : option (list Json * jstext) :=
  match fuel with
  | 0 => None
  | S fuel' =>
      match read_value fuel' s with
      | Some (v, rest) =>
          match skip_json_spaces rest with
          | c :: rest' =>
              if (c =? 93)%N then Some ([v], rest')
              else if (c =? 44)%N then
                match read_elements fuel' rest' with
                | Some (vs, rest'') => Some (v :: vs, rest'')
                | None => None
                end
              else None
          | [] => None
          end
      | None => None
      end
  end
with read_members (fuel : nat) (s : jstext) : option (list (jstext * Json) * jstext) :=
  match fuel with
  | 0 => None
  | S fuel' =>
      match skip_json_spaces s with
      | q :: rest =>
          if (q =? dquote)%N then
            match read_chars rest with
            | Some (key, rest1) =>
                match skip_json_spaces rest1 with
                | colon :: rest2 =>
                    if (colon =? 58)%N then
                      match read_value fuel' rest2 with
                      | Some (v, rest3) =>
                          match skip_json_spaces rest3 with
                          | c :: rest4 =>
                              if (c =? 125)%N then Some ([(key, v)], rest4)
                              else if (c =? 44)%N then
                                match read_members fuel' rest4 with
                                | Some (fs, rest5) => Some ((key, v) :: fs, rest5)
                                | None => None
                                end
                              else None
                          | [] => None
                          end
                      | None => None
                      end
                    else None
                | [] => None
                end
            | None => None
            end
          else None
      | [] => None
      end
  end.

Definition readJson (s : jstext) : Outcome Json :=
  match read_value (S (length s)) s with
  | Some (v, rest) =>
      match skip_json_spaces rest with
      | [] => Returned v
      | _ :: _ => Raised SyntaxError
      end
  | None => Raised SyntaxError
  end.

(** Reading the parsed value at the types the operations ask for. *)

Definition text_of (s : jstext) : string :=
  String.string_of_list_ascii (Ascii.ascii_of_N <$> s).

Definition field (name : string) (v : Json) : option Json :=
  match v with
  | JObject fields =>
      match list_find (fun kv : jstext * Json => fst kv = units name) (reverse fields) with
      | Some (_, (_, value)) => Some value
      | None => None
      end
  | _ => None
  end.

Definition json_text (v : Json) : option string :=
  match v with
  | JString s => Some (text_of s)
  | _ => None
  end.

Definition json_texts (v : Json) : list string :=
  match v with
  | JArray items => omap json_text items
  | _ => []
  end.

Definition json_table (v : option Json) : TableData :=
  match v with
  | Some t =>
      mkTable (default [] (json_texts <$> field "headers" t))
              (match field "rows" t with
               | Some (JArray items) => json_texts <$> items
               | _ => []
               end)
  | None => mkTable [] []
  end.

Definition jsonRecognize (v : Json) : RecognizeResult :=
  mkRecognize (field "title" v ≫= json_text) (json_table (field "tableData" v)).

Definition jsonSearch (v : Json) : SearchResult :=
  mkSearch (json_table (field "tableData" v)) (field "searchSummary" v ≫= json_text).

Definition jsonModify (v : Json) : ModifyResult :=
  mkModify (json_table (field "tableData" v)) (field "explanation" v ≫= json_text).

(** Scripted gateways: the prompt is not looked at. *)

Definition replying (text : jstext) (params : unit) : Outcome InvokeResult :=
  Returned (mkInvokeResult [mkChoice (ContentText text)]).

Definition failing (e : Exn) (params : unit) : Outcome InvokeResult :=
  Raised e.

Definition anyPrompt {A B : Type} (a : A) (b : B) : unit := tt.

(** The tables and completions of the examples. *)

(** The two texts of the extraction example of the specification. *)
Definition rawExample : jstext := json "{'a':1}".

Definition fencedExample : jstext :=
  fence ++ units "json" ++ newline ++ rawExample ++ newline ++ fence.

Definition fieldTable : TableData :=
  mkTable ["Field"; "Content"] [["k1"; "x"]; ["k2"; "y"]].

Definition formTable : TableData :=
  mkTable ["Field"; "Required"; "Content"] [["k1"; ""; "x"]; ["k2"; "yes"; "y"]].

Definition nameTable : TableData := mkTable ["Name"] [["k"]].

Definition shortRowTable : TableData := mkTable ["A"; "B"] [["k"]].

Definition smallTable : TableData := mkTable ["A"; "B"] [["1"; "2"]].

(** Three rows for a table of two, in another order, [k1] twice, and other
    headers than the original's. *)
Definition reorderedReply : jstext :=
  json "{'tableData':{'headers':['X','Y'],'rows':[['k2','Y2'],['k1','X2'],['k1','X3']]},'searchSummary':'done'}".

(** Two rows for a table of two. *)
Definition alignedReply : jstext :=
  fence ++ units "json" ++ newline ++
  json "{'tableData':{'headers':['Field','Required','Content'],'rows':[['zz','maybe','X2'],['k2','no','']]},'searchSummary':'done'}"
  ++ newline ++ fence.

Definition renamedReply : jstext :=
  json "{'tableData':{'headers':['Name'],'rows':[['new']]}}".

Definition unrelatedReply : jstext :=
  json "{'tableData':{'headers':['A','B'],'rows':[['x','1'],['y','2']]}}".

(** Three headers and two rows, one short and one long. *)
Definition widenedReply : jstext :=
  json "{'tableData':{'headers':['A','B','C'],'rows':[['1'],['3','4','5','6']]},'explanation':'added'}".

Definition jaggedReply : jstext :=
  json "{'title':'T','tableData':{'headers':['A','B'],'rows':[['1']]}}".

Definition proseReply : jstext := units "Sorry, I cannot help with that.".

Definition wrappedReply : jstext :=
  units "Here you go: " ++ fence ++ (units "json" ++ newline ++ rawExample ++ newline)
  ++ fence ++ units " Done.".

Definition missingKey : Exn := Error "GEMINI_API_KEY is not configured".

(** A candidate of two columns and two rows for a table of one column. *)
Definition keyedReply : jstext :=
  json "{'tableData':{'headers':['Name','Value'],'rows':[['k','v'],['z','w']]}}".

(** A rectangular answer to a modification. *)
Definition tidyReply : jstext :=
  json "{'tableData':{'headers':['A','B','C'],'rows':[['1','9','']]},'explanation':'set'}".

(** The store of the examples, whose writes succeed or throw. *)
Definition storedDocs : list Document :=
  [ mkDocument "doc_a" "A" None smallTable "t0" "t0";
    mkDocument "doc_b" "B" (Some "second") fieldTable "t0" "t0" ].

Definition stored (docs : list Document) : Outcome unit := Returned tt.

Definition storageFull (docs : list Document) : Outcome unit := Raised TypeError.

(** The gateway of the examples: a key, the default URL, and a scripted
    [fetch] that answers every request with the same body. *)
Definition configured : Env := mkEnv (Some (units "key")) None.

Definition braces (part : ContentPart) : string := "{}".

Definition answering {JSValue : Type} (data : GeminiResponse) (request : @Request JSValue)
  : Outcome Response :=
  Returned (mkResponse true 200 "OK" (Returned "") (Returned data)).

(** An answer whose first candidate has three parts, the second without
    text, and an answer without candidates. *)
Definition twoPartAnswer : GeminiResponse :=
  mkGeminiResponse
    (Some [mkCandidate
             (Some (mkCandidateContent (Some "model")
                      (Some [mkCandidatePart (Some (units "{"));
                             mkCandidatePart None;
                             mkCandidatePart (Some (units "}"))])))
             (Some "STOP")])
    None.

Definition emptyAnswer : GeminiResponse := mkGeminiResponse None None.

(** A conversation with every role; the tool message carries a file. *)
Definition dialogue : list Message :=
  [ mkMessage RoleSystem (One (ItemString "be brief")) None None;
    mkMessage RoleUser (Many [ItemString "hello"; ItemPart (PartText "there")]) None None;
    mkMessage RoleAssistant (One (ItemString "hi")) None None;
    mkMessage RoleTool (One (ItemPart (PartFile (units "https://example.org/a.pdf") None)))
              None (Some "call_1") ].

Definition fileMessage : Message :=
  mkMessage RoleUser (One (ItemPart (PartFile (units "https://example.org/a.pdf") None)))
            None None.

(** Parameters with an output schema, and with a required tool. *)
Definition schemaParams : @InvokeParams unit :=
  mkInvokeParams (messages (@chatParams unit "s" "u")) None None None None None
                 (Some (mkJsonSchema "table" (Some tt) None)) None None None.

Definition toolParams : @InvokeParams unit :=
  mkInvokeParams (messages (@chatParams unit "s" "u")) (Some [mkTool "lookup" None None])
                 None (Some ChoiceRequired) None None None None None None.

(** ** Predicates used by the statements *)

(** Every row has as many cells as there are headers. *)
Definition rectangular (t : TableData) : Prop :=
  Forall (fun r => length r = length (headers t)) (rows t).

(** The text of a cell, a missing cell read as the empty text. *)
Definition cell (row : list string) (col : nat) : string :=
  default "" (row !! col).

(** [p] occurs in [s] as a contiguous block. *)
Definition occurs (p s : jstext) : Prop :=
  exists a b, s = a ++ p ++ b.

(** The text holds a fenced block: two fences that do not overlap. *)
Definition fenced_block (content : jstext) : Prop :=
  exists a b c, content = a ++ fence ++ b ++ fence ++ c.

(** The text of [s] that stands before its first fence. *)
Definition up_to_fence (s : jstext) : option jstext :=
  match find_fence s with
  | Some (group1, _) => Some group1
  | None => None
  end.

(** The body of a fenced block once an optional [json] tag is removed. *)
Definition untag (body : jstext) : jstext :=
  default body (strip_prefix json_tag body).

(** The gateway answered [params] with a usable completion text. *)
Definition answered {InvokeParams : Type} (invokeLLM : InvokeParams -> Outcome InvokeResult)
    (params : InvokeParams) (content : jstext) : Prop :=
  exists result, invokeLLM params = Returned result /\ responseContent result = Some content.

(** * Properties *)

(** ** Cells *)

Lemma or_empty_default (a : option string) : or_empty a = default "" a.
Proof.
  destruct a as [s|]; [|reflexivity].
  unfold or_empty, js_or; simpl.
  case_bool_decide as Hs; simpl; [reflexivity|].
  destruct (decide (s = "")) as [->|]; [reflexivity|contradiction].
Qed.

Lemma or_empty_js_or (a b : option string) :
  or_empty (js_or a b) = if decide (default "" a = "") then default "" b else default "" a.
Proof.
  rewrite or_empty_default. unfold js_or.
  destruct a as [s|]; simpl.
  - case_bool_decide as Hs; destruct (decide (s = "")); simpl; congruence.
  - reflexivity.
Qed.

(** ** Column-count repair *)

Lemma length_normalizeRow n o r : length (normalizeRow n o r) = n.
Proof.
  unfold normalizeRow. repeat case_decide.
  - rewrite length_app, length_fmap, length_seq. lia.
  - rewrite length_take. lia.
  - lia.
Qed.

Lemma normalizeRow_aligned n o r : length r = n -> normalizeRow n o r = r.
Proof. intros H. unfold normalizeRow. repeat case_decide; try lia. reflexivity. Qed.

Lemma lookup_normalizeRow n o r j :
  j < n ->
  normalizeRow n o r !! j = Some (match r !! j with Some v => v | None => cell o j end).
Proof.
  intros Hj. unfold normalizeRow, cell. repeat case_decide.
  - destruct (decide (j < length r)) as [Hlt|Hge].
    + rewrite lookup_app_l by done.
      destruct (lookup_lt_is_Some_2 r j Hlt) as [v Hv]. by rewrite Hv.
    + rewrite lookup_app_r by lia.
      rewrite (lookup_ge_None_2 r j) by lia.
      rewrite list_lookup_fmap, lookup_seq_lt by lia. simpl.
      rewrite or_empty_default. do 3 f_equal. lia.
  - rewrite lookup_take_lt by done.
    destruct (lookup_lt_is_Some_2 r j ltac:(lia)) as [v Hv]. by rewrite Hv.
  - destruct (lookup_lt_is_Some_2 r j ltac:(lia)) as [v Hv]. by rewrite Hv.
Qed.

Lemma length_normalizeRows n os rs : length (normalizeRows n os rs) = length rs.
Proof. unfold normalizeRows. apply length_imap. Qed.

Lemma lookup_normalizeRows n os rs i :
  normalizeRows n os rs !! i = normalizeRow n (row_or_nil os i) <$> rs !! i.
Proof. unfold normalizeRows. by rewrite list_lookup_imap. Qed.

Lemma normalizeRows_rectangular hs n os rs :
  n = length hs -> rectangular (mkTable hs (normalizeRows n os rs)).
Proof.
  intros ->. unfold rectangular. simpl. apply Forall_lookup_2.
  intros i r. rewrite lookup_normalizeRows. intros Hr.
  apply fmap_Some in Hr as (r0 & _ & ->). apply length_normalizeRow.
Qed.

(** ** Row matching by first column *)

Lemma find_match_Some cand o m :
  find_match cand o = Some m <->
  exists i, cand !! i = Some m /\ same_key o m /\
            forall j y, cand !! j = Some y -> j < i -> ~ same_key o y.
Proof.
  unfold find_match. split.
  - intros ([i m'] & Hf & ->)%fmap_Some. simpl.
    exists i. by apply list_find_Some in Hf.
  - intros (i & Hi). apply fmap_Some. exists (i, m). split; [|done].
    by apply list_find_Some.
Qed.

Lemma find_match_None cand o :
  find_match cand o = None <-> Forall (fun r => ~ same_key o r) cand.
Proof. unfold find_match. rewrite fmap_None. apply list_find_None. Qed.

Lemma find_match_first pre m post o :
  Forall (fun r => ~ same_key o r) pre -> same_key o m ->
  find_match (pre ++ m :: post) o = Some m.
Proof.
  intros Hpre Hm. apply find_match_Some. exists (length pre).
  split; [by rewrite list_lookup_middle|]. split; [done|].
  intros j y Hj Hlt. rewrite lookup_app_l in Hj by done.
  by eapply (Forall_lookup_1 _ _ _ _ Hpre).
Qed.

Lemma last_cell_is_Some m : m <> [] -> is_Some (last_cell m).
Proof.
  destruct m as [|c m']; [done|]. intros _. unfold last_cell.
  apply lookup_lt_is_Some_2. simpl. lia.
Qed.

(** The assignment of [realignRow] never stores [undefined] in a row. *)
Lemma matched_last_cell_defined cand o m :
  find_match cand o = Some m -> o <> [] -> is_Some (last_cell m).
Proof.
  intros (i & _ & Hkey & _)%find_match_Some Ho. apply last_cell_is_Some.
  intros ->. unfold same_key in Hkey. destruct o; [done|]. discriminate Hkey.
Qed.

Lemma length_assign_last o v : length (assign_last o v) = length o.
Proof.
  destruct o as [|c o'], v as [s|]; try reflexivity.
  unfold assign_last. by rewrite length_insert.
Qed.

Lemma length_realignRow n cand o : length (realignRow n cand o) = length o.
Proof.
  unfold realignRow. destruct (find_match cand o); [|done].
  simpl. case_decide; [apply length_assign_last|done].
Qed.

Lemma realignRow_matched n cand o m :
  find_match cand o = Some m -> n <= length m ->
  realignRow n cand o = assign_last o (last_cell m).
Proof. intros Hm Hn. unfold realignRow. rewrite Hm. simpl. by case_decide. Qed.

Lemma realignRow_short n cand o m :
  find_match cand o = Some m -> length m < n -> realignRow n cand o = o.
Proof. intros Hm Hn. unfold realignRow. rewrite Hm. simpl. case_decide; [lia|done]. Qed.

Lemma realignRow_unmatched n cand o :
  find_match cand o = None -> realignRow n cand o = o.
Proof. intros Hm. unfold realignRow. by rewrite Hm. Qed.

(** ** Position-wise merge *)

Lemma collect_mergeRow n os ps :
  length ps = length os ->
  collect (imap (fun idx newRow => mergeRow n (os !! idx) newRow) ps)
  = Returned (zip_with (fun o c => mergeCell n o c <$> seq 0 n) os ps).
Proof.
  revert os. induction ps as [|c ps IH]; intros [|o os] Hlen; try discriminate Hlen.
  - reflexivity.
  - rewrite imap_cons. simpl in *.
    rewrite (imap_ext _ (fun idx newRow => mergeRow n (os !! idx) newRow)) by done.
    rewrite IH by lia. reflexivity.
Qed.

Lemma lookup_mergeCells n o c col :
  col < n -> (mergeCell n o c <$> seq 0 n) !! col = Some (mergeCell n o c col).
Proof. intros H. by rewrite list_lookup_fmap, lookup_seq_lt. Qed.

(** ** [reconcileSearch] in closed form *)

Lemma reconcileSearch_realigned t p :
  length (rows p) <> length (rows t) ->
  reconcileSearch t p
  = Returned (mkTable (headers t)
       (normalizeRows (length (headers t)) (rows t)
          (realignRow (length (headers t)) (rows p) <$> rows t))).
Proof. intros H. unfold reconcileSearch. by case_decide. Qed.

Lemma reconcileSearch_merged t p :
  length (rows p) = length (rows t) ->
  reconcileSearch t p
  = Returned (mkTable (headers t)
       (normalizeRows (length (headers t)) (rows t)
          (zip_with (fun o c => mergeCell (length (headers t)) o c <$> seq 0 (length (headers t)))
                    (rows t) (rows p)))).
Proof.
  intros H. unfold reconcileSearch. case_decide; [done|].
  by rewrite collect_mergeRow.
Qed.

(** [reconcileSearch] never throws, keeps the original headers and row count
    and yields rows of header-count cells. *)
Lemma reconcileSearch_returns t p :
  exists out, reconcileSearch t p = Returned out /\
    headers out = headers t /\
    length (rows out) = length (rows t) /\
    rectangular out.
Proof.
  destruct (decide (length (rows p) = length (rows t))) as [Heq|Hne].
  - eexists. split; [by apply reconcileSearch_merged|]. simpl.
    split; [done|]. split.
    + rewrite length_normalizeRows, length_zip_with. lia.
    + by apply normalizeRows_rectangular.
  - eexists. split; [by apply reconcileSearch_realigned|]. simpl.
    split; [done|]. split.
    + by rewrite length_normalizeRows, length_fmap.
    + by apply normalizeRows_rectangular.
Qed.

Lemma reconcileModify_rectangular t p : rectangular (reconcileModify t p).
Proof. unfold reconcileModify. by apply normalizeRows_rectangular. Qed.

(** ** The paths through the three operations *)

Section OperationProperties.
Context {JSValue : Type} (JSON_parse : jstext -> Outcome JSValue).
Context (as_Recognize : JSValue -> RecognizeResult).
Context (as_Search : JSValue -> SearchResult).
Context (as_Modify : JSValue -> ModifyResult).
Context {InvokeParams : Type} (invokeLLM : InvokeParams -> Outcome InvokeResult).
Context (recognizePrompt : string -> option string -> InvokeParams).
Context (searchPrompt modifyPrompt : TableData -> string -> InvokeParams).

Local Abbreviation recognize := (recognizeFromImage JSON_parse as_Recognize invokeLLM recognizePrompt).
Local Abbreviation search := (searchAndFill JSON_parse as_Search invokeLLM searchPrompt).
Local Abbreviation modify := (modifyTable JSON_parse as_Modify invokeLLM modifyPrompt).

Ltac run_path :=
  repeat match goal with
  | H : answered _ _ _ |- _ => destruct H as (? & ? & ?)
  | H : invokeLLM _ = _ |- _ => rewrite H; clear H; simpl
  | H : responseContent _ = _ |- _ => unfold requireContent; rewrite H; clear H; simpl
  | H : JSON_parse _ = _ |- _ => unfold parseJsonResponse; rewrite H; clear H; simpl
  end.

(** *** [searchAndFill] *)

Lemma search_gateway_raises t instr e :
  invokeLLM (searchPrompt t instr) = Raised e -> search t instr = Raised e.
Proof. intros. unfold searchAndFill. by run_path. Qed.

Lemma search_without_content t instr result :
  invokeLLM (searchPrompt t instr) = Returned result ->
  responseContent result = None ->
  search t instr = Raised (Error "Failed to get response from LLM").
Proof. intros. unfold searchAndFill. by run_path. Qed.

Lemma search_degraded t instr content e :
  answered invokeLLM (searchPrompt t instr) content ->
  JSON_parse (jsonStr content) = Raised e ->
  search t instr = Returned (mkSearch t (Some failureText)).
Proof. intros. unfold searchAndFill. by run_path. Qed.

Lemma search_success t instr content v :
  answered invokeLLM (searchPrompt t instr) content ->
  JSON_parse (jsonStr content) = Returned v ->
  exists out,
    reconcileSearch t (filled (as_Search v)) = Returned out /\
    search t instr = Returned (mkSearch out (searchSummary (as_Search v))).
Proof.
  intros. destruct (reconcileSearch_returns t (filled (as_Search v))) as (out & Hout & _).
  exists out. split; [done|]. unfold searchAndFill. run_path. by rewrite Hout.
Qed.

(** Every run of [searchAndFill] takes one of the four paths. *)
Lemma search_paths t instr :
  (exists e, invokeLLM (searchPrompt t instr) = Raised e) \/
  (exists result, invokeLLM (searchPrompt t instr) = Returned result /\
                  responseContent result = None) \/
  (exists content e, answered invokeLLM (searchPrompt t instr) content /\
                     JSON_parse (jsonStr content) = Raised e) \/
  (exists content v, answered invokeLLM (searchPrompt t instr) content /\
                     JSON_parse (jsonStr content) = Returned v).
Proof.
  unfold answered. destruct (invokeLLM (searchPrompt t instr)) as [result|e] eqn:Hg; [|eauto].
  destruct (responseContent result) as [content|] eqn:Hc; [|eauto].
  destruct (JSON_parse (jsonStr content)) as [v|e] eqn:Hp; eauto 10.
Qed.

(** *** [modifyTable] *)

Lemma modify_gateway_raises t instr e :
  invokeLLM (modifyPrompt t instr) = Raised e -> modify t instr = Raised e.
Proof. intros. unfold modifyTable. by run_path. Qed.

Lemma modify_without_content t instr result :
  invokeLLM (modifyPrompt t instr) = Returned result ->
  responseContent result = None ->
  modify t instr = Raised (Error "Failed to get response from LLM").
Proof. intros. unfold modifyTable. by run_path. Qed.

Lemma modify_degraded t instr content e :
  answered invokeLLM (modifyPrompt t instr) content ->
  JSON_parse (jsonStr content) = Raised e ->
  modify t instr = Returned (mkModify t (Some failureText)).
Proof. intros. unfold modifyTable. by run_path. Qed.

Lemma modify_success t instr content v :
  answered invokeLLM (modifyPrompt t instr) content ->
  JSON_parse (jsonStr content) = Returned v ->
  modify t instr
  = Returned (mkModify (reconcileModify t (modified (as_Modify v)))
                       (explanation (as_Modify v))).
Proof. intros. unfold modifyTable. by run_path. Qed.

(** *** [recognizeFromImage] *)

Lemma recognize_gateway_raises img desc e :
  invokeLLM (recognizePrompt img desc) = Raised e -> recognize img desc = Raised e.
Proof. intros. unfold recognizeFromImage. by run_path. Qed.

Lemma recognize_without_content img desc result :
  invokeLLM (recognizePrompt img desc) = Returned result ->
  responseContent result = None ->
  recognize img desc = Raised (Error "Failed to get response from LLM").
Proof. intros. unfold recognizeFromImage. by run_path. Qed.

Lemma recognize_degraded img desc content e :
  answered invokeLLM (recognizePrompt img desc) content ->
  JSON_parse (jsonStr content) = Raised e ->
  recognize img desc = Returned fallbackRecognition.
Proof. intros. unfold recognizeFromImage. by run_path. Qed.

Lemma recognize_success img desc content v :
  answered invokeLLM (recognizePrompt img desc) content ->
  JSON_parse (jsonStr content) = Returned v ->
  recognize img desc
  = Returned (mkRecognize (title (as_Recognize v)) (recognized (as_Recognize v))).
Proof. intros. unfold recognizeFromImage. by run_path. Qed.


(** ** Failure semantics *)

(** C2 (amended). For [searchAndFill] and [modifyTable]: when the gateway
    answered with a completion text and [JSON.parse] throws on the extracted
    text, the operation does not raise: it returns the original table
    unchanged together with the failure text. The gateway call stands
    outside the [try] block: when it throws, or answers without a usable
    text, the exception reaches the caller. *)
Theorem parse_failure_returns_original (t : TableData) (instr : string) :
  (forall content e,
     answered invokeLLM (searchPrompt t instr) content ->
     JSON_parse (jsonStr content) = Raised e ->
     search t instr = Returned (mkSearch t (Some failureText))) /\
  (forall content e,
     answered invokeLLM (modifyPrompt t instr) content ->
     JSON_parse (jsonStr content) = Raised e ->
     modify t instr = Returned (mkModify t (Some failureText))) /\
  (forall e, invokeLLM (searchPrompt t instr) = Raised e -> search t instr = Raised e) /\
  (forall e, invokeLLM (modifyPrompt t instr) = Raised e -> modify t instr = Raised e) /\
  (forall result,
     invokeLLM (searchPrompt t instr) = Returned result -> responseContent result = None ->
     search t instr = Raised (Error "Failed to get response from LLM")) /\
  (forall result,
     invokeLLM (modifyPrompt t instr) = Returned result -> responseContent result = None ->
     modify t instr = Raised (Error "Failed to get response from LLM")).
Proof.
  split_and!; intros.
  - by eapply search_degraded.
  - by eapply modify_degraded.
  - by apply search_gateway_raises.
  - by apply modify_gateway_raises.
  - by eapply search_without_content.
  - by eapply modify_without_content.
Qed.

(** C3 (amended). For [recognizeFromImage]: when the gateway answered with a
    completion text and [JSON.parse] throws on the extracted text, the
    operation does not raise: it returns the fixed fallback table with the
    generic title. When the gateway call throws, or answers without a usable
    text, the exception reaches the caller. *)
Theorem recognition_fallback (img : string) (desc : option string) :
  (forall content e,
     answered invokeLLM (recognizePrompt img desc) content ->
     JSON_parse (jsonStr content) = Raised e ->
     recognize img desc
     = Returned (mkRecognize (Some "识别的表格")
                   (mkTable ["列1"; "列2"; "列3"] [["无法识别"; ""; ""]]))) /\
  (forall e, invokeLLM (recognizePrompt img desc) = Raised e ->
     recognize img desc = Raised e) /\
  (forall result,
     invokeLLM (recognizePrompt img desc) = Returned result -> responseContent result = None ->
     recognize img desc = Raised (Error "Failed to get response from LLM")).
Proof.
  split_and!; intros.
  - by eapply recognize_degraded.
  - by apply recognize_gateway_raises.
  - by eapply recognize_without_content.
Qed.

(** ** Invariants of [searchAndFill] *)

(** Whatever [searchAndFill] returns has the original headers and the
    original number of rows. *)
Lemma search_returned_shape t instr r :
  search t instr = Returned r ->
  headers (filled r) = headers t /\ length (rows (filled r)) = length (rows t).
Proof.
  intros Hr.
  destruct (search_paths t instr)
    as [(e & Hg)|[(result & Hg & Hc)|[(content & e & Ha & Hp)|(content & v & Ha & Hp)]]].
  - rewrite (search_gateway_raises _ _ _ Hg) in Hr. discriminate.
  - rewrite (search_without_content _ _ _ Hg Hc) in Hr. discriminate.
  - rewrite (search_degraded _ _ _ _ Ha Hp) in Hr. by simplify_eq.
  - destruct (search_success t instr content v Ha Hp) as (out & Hout & Hs).
    rewrite Hs in Hr. simplify_eq. simpl.
    destruct (reconcileSearch_returns t (filled (as_Search v))) as (out' & Hout' & Hh & Hl & _).
    rewrite Hout in Hout'. by simplify_eq.
Qed.

(** When the gateway answers with a completion text, [searchAndFill] returns. *)
Lemma search_returns t instr content :
  answered invokeLLM (searchPrompt t instr) content ->
  exists r, search t instr = Returned r.
Proof.
  intros Ha. destruct (JSON_parse (jsonStr content)) as [v|e] eqn:Hp.
  - destruct (search_success t instr content v Ha Hp) as (out & _ & Hs). eauto.
  - rewrite (search_degraded _ _ _ _ Ha Hp). eauto.
Qed.

(** C4. The headers returned by [searchAndFill] are the original headers,
    whatever the candidate's headers are, on the success path and on the
    degraded path; and the operation does return on both, that is whenever
    the gateway answered with a completion text. *)
Theorem search_headers_are_original (t : TableData) (instr : string) :
  (forall r, search t instr = Returned r -> headers (filled r) = headers t) /\
  (forall content, answered invokeLLM (searchPrompt t instr) content ->
     exists r, search t instr = Returned r /\ headers (filled r) = headers t).
Proof.
  split.
  - intros r Hr. by apply search_returned_shape in Hr as [? _].
  - intros content Ha. destruct (search_returns t instr content Ha) as (r & Hr).
    exists r. split; [done|]. by apply search_returned_shape in Hr as [? _].
Qed.

(** C5. The table returned by [searchAndFill] has as many rows as the
    original table, on the success path and on the degraded path; and the
    operation does return on both. *)
Theorem search_row_count_is_original (t : TableData) (instr : string) :
  (forall r, search t instr = Returned r -> length (rows (filled r)) = length (rows t)) /\
  (forall content, answered invokeLLM (searchPrompt t instr) content ->
     exists r, search t instr = Returned r /\ length (rows (filled r)) = length (rows t)).
Proof.
  split.
  - intros r Hr. by apply search_returned_shape in Hr as [_ ?].
  - intros content Ha. destruct (search_returns t instr content Ha) as (r & Hr).
    exists r. split; [done|]. by apply search_returned_shape in Hr as [_ ?].
Qed.

(** ** Column counts *)

Lemma fallbackTable_rectangular : rectangular fallbackTable.
Proof. unfold rectangular. simpl. by repeat constructor. Qed.

(** C1 (amended). On the success path of [searchAndFill] and of
    [modifyTable], that is whenever the completion parses to a candidate
    table, every row of the returned table has as many cells as the returned
    headers, for every original table, instruction and candidate table. No
    repair runs elsewhere: on their degraded path these two operations return
    the original table as it was given, and [recognizeFromImage] returns the
    fixed fallback table, whose rows have three cells for three headers, or,
    on its success path, the candidate table exactly as parsed. *)
Theorem column_count_on_repair_paths (t : TableData) (instr img : string)
    (desc : option string) :
  (forall content v,
     answered invokeLLM (searchPrompt t instr) content ->
     JSON_parse (jsonStr content) = Returned v ->
     exists r, search t instr = Returned r /\ rectangular (filled r)) /\
  (forall content v,
     answered invokeLLM (modifyPrompt t instr) content ->
     JSON_parse (jsonStr content) = Returned v ->
     exists r, modify t instr = Returned r /\ rectangular (modified r)) /\
  (forall content e,
     answered invokeLLM (searchPrompt t instr) content ->
     JSON_parse (jsonStr content) = Raised e ->
     exists r, search t instr = Returned r /\ filled r = t) /\
  (forall content e,
     answered invokeLLM (modifyPrompt t instr) content ->
     JSON_parse (jsonStr content) = Raised e ->
     exists r, modify t instr = Returned r /\ modified r = t) /\
  (forall content e,
     answered invokeLLM (recognizePrompt img desc) content ->
     JSON_parse (jsonStr content) = Raised e ->
     exists r, recognize img desc = Returned r /\ rectangular (recognized r)) /\
  (forall content v,
     answered invokeLLM (recognizePrompt img desc) content ->
     JSON_parse (jsonStr content) = Returned v ->
     exists r, recognize img desc = Returned r /\
               recognized r = recognized (as_Recognize v)).
Proof.
  split_and!; intros content x Ha Hp.
  - destruct (search_success t instr content x Ha Hp) as (out & Hout & Hs).
    eexists. split; [exact Hs|]. simpl.
    destruct (reconcileSearch_returns t (filled (as_Search x))) as (out' & Hout' & _ & _ & Hrect).
    rewrite Hout in Hout'. by simplify_eq.
  - eexists. split; [by eapply modify_success|]. simpl. apply reconcileModify_rectangular.
  - eexists. split; [by eapply search_degraded|]. done.
  - eexists. split; [by eapply modify_degraded|]. done.
  - eexists. split; [by eapply recognize_degraded|]. apply fallbackTable_rectangular.
  - eexists. split; [by eapply recognize_success|]. done.
Qed.

(** ** [modifyTable] on its success path *)

(** C8. On the success path of [modifyTable] the returned headers and the
    number of returned rows are the candidate's. Each returned row is the
    candidate row brought to the candidate's header count: its cell at a
    column below that count is the candidate's cell when the candidate row
    has one, else the cell of the original row at the same index when there
    is such a row and cell, else the empty text; a longer row keeps its
    first header-count cells. With three headers, the original row
    [k1, old2, old3] and the candidate row [k1, new2] give
    [k1, new2, old3]. *)
Theorem modify_normalizes_candidate_rows (t : TableData) (instr : string) :
  (forall content v,
     answered invokeLLM (modifyPrompt t instr) content ->
     JSON_parse (jsonStr content) = Returned v ->
     exists out,
       modify t instr = Returned (mkModify out (explanation (as_Modify v))) /\
       headers out = headers (modified (as_Modify v)) /\
       length (rows out) = length (rows (modified (as_Modify v))) /\
       forall i c, rows (modified (as_Modify v)) !! i = Some c ->
         exists r, rows out !! i = Some r /\
           length r = length (headers out) /\
           (forall j, j < length (headers out) ->
              r !! j = Some (match c !! j with
                             | Some x => x
                             | None => match rows t !! i with
                                       | Some o => cell o j
                                       | None => ""
                                       end
                             end)) /\
           (length (headers out) <= length c -> r = take (length (headers out)) c) /\
           (length c <= length (headers out) -> take (length c) r = c)) /\
  normalizeRow 3 ["k1"; "old2"; "old3"] ["k1"; "new2"] = ["k1"; "new2"; "old3"].
Proof.
  split; [|reflexivity].
  intros content v Ha Hp. eexists. split; [by eapply modify_success|].
  set (cand := modified (as_Modify v)). unfold reconcileModify. simpl.
  split; [done|]. split; [apply length_normalizeRows|].
  intros i c Hc. rewrite lookup_normalizeRows, Hc. simpl.
  eexists. split; [done|]. split; [apply length_normalizeRow|].
  assert (Hcell : forall j, j < length (headers cand) ->
            normalizeRow (length (headers cand)) (row_or_nil (rows t) i) c !! j
            = Some (match c !! j with
                    | Some x => x
                    | None => match rows t !! i with Some o => cell o j | None => "" end
                    end)).
  { intros j Hj. rewrite lookup_normalizeRow by done. unfold row_or_nil.
    destruct (rows t !! i); simpl; [done|]. unfold cell. by rewrite lookup_nil. }
  split; [exact Hcell|]. split.
  - intros Hlen. unfold normalizeRow. repeat case_decide; try lia; [done|].
    rewrite take_ge; [done|lia].
  - intros Hlen. unfold normalizeRow. repeat case_decide; try lia.
    + by rewrite take_app_length.
    + by rewrite take_ge by lia.
Qed.

(** ** [searchAndFill] on its success path *)

Lemma last_cell_last m : last_cell m = last m.
Proof.
  rewrite last_lookup. destruct m as [|c m']; [done|].
  unfold last_cell. f_equal. simpl. lia.
Qed.

Lemma assign_last_lookup_other o v j :
  j < length o - 1 -> assign_last o v !! j = o !! j.
Proof.
  intros Hj. destruct o as [|c o'], v as [s|]; try done.
  unfold assign_last. apply list_lookup_insert_ne. lia.
Qed.

Lemma assign_last_lookup_last o x :
  o <> [] -> assign_last o (Some x) !! (length o - 1) = Some x.
Proof.
  intros Ho. destruct o as [|c o']; [done|].
  unfold assign_last. apply list_lookup_insert_eq. simpl. lia.
Qed.

Lemma search_success_merged t instr content v :
  answered invokeLLM (searchPrompt t instr) content ->
  JSON_parse (jsonStr content) = Returned v ->
  length (rows (filled (as_Search v))) = length (rows t) ->
  search t instr
  = Returned (mkSearch
      (mkTable (headers t)
         (normalizeRows (length (headers t)) (rows t)
            (zip_with (fun o c => mergeCell (length (headers t)) o c
                                    <$> seq 0 (length (headers t)))
                      (rows t) (rows (filled (as_Search v))))))
      (searchSummary (as_Search v))).
Proof.
  intros Ha Hp Hlen. destruct (search_success t instr content v Ha Hp) as (out & Hout & ->).
  rewrite reconcileSearch_merged in Hout by done. by simplify_eq.
Qed.

Lemma search_success_realigned t instr content v :
  answered invokeLLM (searchPrompt t instr) content ->
  JSON_parse (jsonStr content) = Returned v ->
  length (rows (filled (as_Search v))) <> length (rows t) ->
  search t instr
  = Returned (mkSearch
      (mkTable (headers t)
         (normalizeRows (length (headers t)) (rows t)
            (realignRow (length (headers t)) (rows (filled (as_Search v))) <$> rows t)))
      (searchSummary (as_Search v))).
Proof.
  intros Ha Hp Hlen. destruct (search_success t instr content v Ha Hp) as (out & Hout & ->).
  rewrite reconcileSearch_realigned in Hout by done. by simplify_eq.
Qed.

Lemma lookup_realigned_rows n cand os i o :
  os !! i = Some o ->
  normalizeRows n os (realignRow n cand <$> os) !! i
  = Some (normalizeRow n o (realignRow n cand o)).
Proof.
  intros Ho. rewrite lookup_normalizeRows, list_lookup_fmap. unfold row_or_nil.
  by rewrite Ho.
Qed.

(** C6 (amended). On the success path of [searchAndFill], when the candidate
    has as many rows as the original, rows are merged by position, cell by
    cell below the header count, a missing cell being read as the empty
    text. Column 0 of the output is the original's column 0. A column
    strictly between the first and the last takes the original value unless
    that is empty, and then the candidate's. The last column, when it is not
    also column 0 (two headers or more), takes the candidate's value unless
    that is empty, and then the original's. *)
Theorem search_merges_by_position (t : TableData) (instr : string) :
  forall content v,
    answered invokeLLM (searchPrompt t instr) content ->
    JSON_parse (jsonStr content) = Returned v ->
    length (rows (filled (as_Search v))) = length (rows t) ->
    exists out,
      search t instr = Returned (mkSearch out (searchSummary (as_Search v))) /\
      forall i o c,
        rows t !! i = Some o -> rows (filled (as_Search v)) !! i = Some c ->
        exists r, rows out !! i = Some r /\
          length r = length (headers t) /\
          (0 < length (headers t) -> r !! 0 = Some (cell o 0)) /\
          (0 < length (headers t) -> is_Some (o !! 0) -> r !! 0 = o !! 0) /\
          (forall col, 0 < col -> col < length (headers t) - 1 ->
             r !! col = Some (if decide (cell o col = "") then cell c col else cell o col)) /\
          (1 < length (headers t) ->
             r !! (length (headers t) - 1)
             = Some (if decide (cell c (length (headers t) - 1) = "")
                     then cell o (length (headers t) - 1)
                     else cell c (length (headers t) - 1))).
Proof.
  intros content v Ha Hp Hlen. eexists. split; [by eapply search_success_merged|].
  simpl. set (n := length (headers t)). intros i o c Ho Hc.
  rewrite lookup_normalizeRows, lookup_zip_with, Ho, Hc. simpl.
  rewrite normalizeRow_aligned by (by rewrite length_fmap, length_seq).
  eexists. split; [done|]. split; [by rewrite length_fmap, length_seq|].
  assert (H0 : 0 < n -> (mergeCell n o c <$> seq 0 n) !! 0 = Some (cell o 0)).
  { intros Hn. rewrite lookup_mergeCells by done. unfold mergeCell.
    case_decide; [|done]. by rewrite or_empty_default. }
  split_and!.
  - exact H0.
  - intros Hn [x Hx]. rewrite H0 by done. unfold cell. by rewrite Hx.
  - intros col Hpos Hmid. rewrite lookup_mergeCells by lia. unfold mergeCell.
    destruct (decide (col = 0)); [lia|]. destruct (decide (col < n - 1)); [|lia].
    by rewrite or_empty_js_or.
  - intros Hn. rewrite lookup_mergeCells by lia. unfold mergeCell.
    destruct (decide (n - 1 = 0)); [lia|]. destruct (decide (n - 1 < n - 1)); [lia|].
    by rewrite or_empty_js_or.
Qed.

(** C7 (amended). On the success path of [searchAndFill], when the
    candidate's row count differs from the original's, each original row
    that has exactly header-count cells comes out as follows. If a candidate
    row has the same first-column value, the first such row being the matched
    one, and the matched row has at least header-count cells, the output row
    is the original row with its last column replaced by the matched row's
    last cell and every other column unchanged. If the matched row is
    shorter than the header count, or no candidate row matches, the output
    row is the original row. An original row of any other length goes
    through the same step and is then padded or cut to the header count. *)
Theorem search_realigns_by_first_column (t : TableData) (instr : string) :
  forall content v,
    answered invokeLLM (searchPrompt t instr) content ->
    JSON_parse (jsonStr content) = Returned v ->
    length (rows (filled (as_Search v))) <> length (rows t) ->
    exists out,
      search t instr = Returned (mkSearch out (searchSummary (as_Search v))) /\
      forall i o,
        rows t !! i = Some o ->
        rows out !! i
        = Some (normalizeRow (length (headers t)) o
                  (realignRow (length (headers t)) (rows (filled (as_Search v))) o)) /\
        (length o = length (headers t) ->
         (forall m,
            find_match (rows (filled (as_Search v))) o = Some m ->
            length (headers t) <= length m ->
            exists r, rows out !! i = Some r /\
              length r = length (headers t) /\
              (forall j, j < length (headers t) - 1 -> r !! j = o !! j) /\
              (0 < length (headers t) -> r !! (length (headers t) - 1) = last m)) /\
         (forall m,
            find_match (rows (filled (as_Search v))) o = Some m ->
            length m < length (headers t) ->
            rows out !! i = Some o) /\
         (find_match (rows (filled (as_Search v))) o = None ->
            rows out !! i = Some o)).
Proof.
  intros content v Ha Hp Hlen. eexists. split; [by eapply search_success_realigned|].
  simpl. set (n := length (headers t)). set (cand := rows (filled (as_Search v))).
  intros i o Ho. rewrite (lookup_realigned_rows _ _ _ _ _ Ho).
  split; [done|]. intros Hal. split_and!.
  - intros m Hm Hn. rewrite (realignRow_matched _ _ _ _ Hm Hn).
    rewrite normalizeRow_aligned by (by rewrite length_assign_last).
    eexists. split; [done|]. split; [by rewrite length_assign_last|]. split.
    + intros j Hj. apply assign_last_lookup_other. lia.
    + intros Hpos. assert (Hne : o <> []) by (intros ->; simpl in Hal; lia).
      destruct (matched_last_cell_defined _ _ _ Hm Hne) as [x Hx].
      rewrite Hx, <- last_cell_last, Hx, <- Hal. by apply assign_last_lookup_last.
  - intros m Hm Hn. rewrite (realignRow_short _ _ _ _ Hm Hn).
    by rewrite normalizeRow_aligned.
  - intros Hm. rewrite (realignRow_unmatched _ _ _ Hm). by rewrite normalizeRow_aligned.
Qed.

(** C10. On the row-count-mismatch path of [searchAndFill], when several
    candidate rows have the first-column value of an original row, the
    earliest of them in candidate order is the matched row: the output row
    is computed from it alone, its last cell being the one copied into the
    last column, and the candidate rows after it play no part. *)
Theorem search_first_match_wins (t : TableData) (instr : string) :
  forall content v pre m post,
    answered invokeLLM (searchPrompt t instr) content ->
    JSON_parse (jsonStr content) = Returned v ->
    rows (filled (as_Search v)) = pre ++ m :: post ->
    length (pre ++ m :: post) <> length (rows t) ->
    exists out,
      search t instr = Returned (mkSearch out (searchSummary (as_Search v))) /\
      forall i o,
        rows t !! i = Some o ->
        Forall (fun r => ~ same_key o r) pre -> same_key o m ->
        find_match (pre ++ m :: post) o = Some m /\
        rows out !! i
        = Some (normalizeRow (length (headers t)) o
                  (if decide (length (headers t) <= length m)
                   then assign_last o (last_cell m) else o)) /\
        (length o = length (headers t) -> 0 < length (headers t) ->
         length (headers t) <= length m ->
         exists r, rows out !! i = Some r /\ r !! (length (headers t) - 1) = last m).
Proof.
  intros content v pre m post Ha Hp Hrows Hlen. rewrite <- Hrows in Hlen.
  eexists. split; [by eapply search_success_realigned|].
  simpl. rewrite Hrows. set (n := length (headers t)).
  intros i o Ho Hpre Hkey.
  pose proof (find_match_first pre m post o Hpre Hkey) as Hm.
  rewrite (lookup_realigned_rows _ _ _ _ _ Ho).
  assert (Hre : realignRow n (pre ++ m :: post) o
                = if decide (n <= length m) then assign_last o (last_cell m) else o).
  { unfold realignRow. by rewrite Hm. }
  rewrite Hre. split; [done|]. split; [done|].
  intros Hal Hpos Hn. case_decide; [|lia].
  rewrite normalizeRow_aligned by (by rewrite length_assign_last).
  eexists. split; [done|].
  assert (Hne : o <> []) by (intros ->; simpl in Hal; lia).
  destruct (matched_last_cell_defined _ _ _ Hm Hne) as [x Hx].
  rewrite Hx, <- last_cell_last, Hx, <- Hal. by apply assign_last_lookup_last.
Qed.

End OperationProperties.

(** ** Response extraction *)

Lemma strip_prefix_Some p s r : strip_prefix p s = Some r <-> s = p ++ r.
Proof.
  revert s. induction p as [|a p IH]; intros s; simpl.
  - split; [by intros [= ->]|by intros ->].
  - destruct s as [|b s]; [split; intros; discriminate|].
    case_decide as Hab.
    + subst b. rewrite IH. split; [by intros ->|by intros [= ->]].
    + split; [discriminate|]. intros [= -> _]. done.
Qed.

Lemma strip_prefix_app p s x r :
  strip_prefix p (s ++ x) = Some r -> length p <= length s -> exists r', s = p ++ r'.
Proof.
  revert s. induction p as [|a p IH]; intros s Hs Hlen; simpl in *.
  - by exists s.
  - destruct s as [|b s]; simpl in *; [lia|].
    case_decide; [|discriminate]. subst b.
    destruct (IH s Hs ltac:(lia)) as [r' ->]. by exists r'.
Qed.

(** A prefix made of other characters than the backtick is not affected by
    what follows a backtick. *)
Lemma strip_prefix_before_backtick p body rest :
  Forall (fun a => a <> backtick) p ->
  strip_prefix p (body ++ backtick :: rest)
  = (fun r => r ++ backtick :: rest) <$> strip_prefix p body.
Proof.
  intros Hp. revert body. induction Hp as [|a p Ha Hp IH]; intros body; simpl.
  - done.
  - destruct body as [|b body]; simpl.
    + by case_decide.
    + case_decide; [apply IH|done].
Qed.

Lemma untag_before_fence body post :
  default (body ++ fence ++ post) (strip_prefix json_tag (body ++ fence ++ post))
  = untag body ++ fence ++ post.
Proof.
  unfold untag. change (fence ++ post) with (backtick :: backtick :: backtick :: post).
  rewrite strip_prefix_before_backtick.
  - by destruct (strip_prefix json_tag body).
  - by repeat constructor.
Qed.

Lemma untag_suffix body : exists w, body = w ++ untag body.
Proof.
  unfold untag. destruct (strip_prefix json_tag body) as [r|] eqn:Hr; simpl.
  - apply strip_prefix_Some in Hr. by exists json_tag.
  - by exists [].
Qed.

Lemma skip_spaces_suffix x : exists w, x = w ++ skip_spaces x.
Proof.
  induction x as [|c x [w IH]]; simpl; [by exists []|].
  destruct (is_space c); [|by exists []].
  exists (c :: w). simpl. by rewrite <- IH.
Qed.

Lemma skip_spaces_idemp x : skip_spaces (skip_spaces x) = skip_spaces x.
Proof.
  induction x as [|c x IH]; simpl; [done|].
  destruct (is_space c) eqn:Hc; [done|]. simpl. by rewrite Hc.
Qed.

Lemma skip_spaces_before_fence x post :
  skip_spaces (x ++ fence ++ post) = skip_spaces x ++ fence ++ post.
Proof.
  induction x as [|c x IH]; simpl; [done|]. by destruct (is_space c).
Qed.

Lemma trim_skip_spaces x : trim (skip_spaces x) = trim x.
Proof. unfold trim. by rewrite skip_spaces_idemp. Qed.

Lemma occurs_suffix p w s : occurs p s -> occurs p (w ++ s).
Proof. intros (a & b & ->). exists (w ++ a), b. by rewrite <- (assoc_L (++)). Qed.

Lemma find_fence_cons c s :
  find_fence (c :: s)
  = match strip_prefix fence (c :: s) with
    | Some rest => Some ([], rest)
    | None =>
        match find_fence s with
        | Some (before, rest) => Some (c :: before, rest)
        | None => None
        end
    end.
Proof. reflexivity. Qed.

Lemma find_fence_first a b :
  ~ occurs fence (a ++ [backtick; backtick]) -> find_fence (a ++ fence ++ b) = Some (a, b).
Proof.
  induction a as [|c a IH]; intros Hno; [done|].
  change ((c :: a) ++ fence ++ b) with (c :: (a ++ fence ++ b)).
  rewrite find_fence_cons.
  destruct (strip_prefix fence (c :: (a ++ fence ++ b))) as [r|] eqn:Hr.
  - exfalso. apply Hno.
    change (c :: (a ++ fence ++ b))
      with ((c :: a) ++ [backtick; backtick] ++ backtick :: b) in Hr.
    rewrite (assoc_L (++)) in Hr.
    apply strip_prefix_app in Hr as [r' Hr']; [|rewrite length_app; simpl; lia].
    exists [], r'. exact Hr'.
  - rewrite IH; [done|].
    intros Hocc. apply Hno. by apply (occurs_suffix _ [c]) in Hocc.
Qed.

Lemma find_fence_Some s a b :
  find_fence s = Some (a, b) ->
  s = a ++ fence ++ b /\ ~ occurs fence (a ++ [backtick; backtick]).
Proof.
  revert a. induction s as [|c s IH]; intros a.
  - discriminate.
  - rewrite find_fence_cons.
    destruct (strip_prefix fence (c :: s)) as [r|] eqn:Hr.
    + intros [= <- <-]. apply strip_prefix_Some in Hr. split; [done|].
      intros (x & y & Hxy). apply (f_equal length) in Hxy.
      rewrite !length_app in Hxy. simpl in Hxy. lia.
    + destruct (find_fence s) as [[a' b']|] eqn:Hs; [|discriminate].
      intros [= <- <-]. destruct (IH a' eq_refl) as [-> Hno]. split; [done|].
      intros (x & y & Hxy). destruct x as [|c' x].
      * assert (strip_prefix fence (c :: (a' ++ fence ++ b')) = Some (y ++ backtick :: b'))
          as Hpre; [|congruence].
        apply strip_prefix_Some.
        change (c :: (a' ++ fence ++ b'))
          with ((c :: a') ++ [backtick; backtick] ++ backtick :: b').
        rewrite (assoc_L (++)), Hxy. by rewrite <- !(assoc_L (++)).
      * injection Hxy as _ Hxy. apply Hno. by exists x, y.
Qed.

Lemma occurs_find_fence s : occurs fence s -> is_Some (find_fence s).
Proof.
  intros (a & b & ->). induction a as [|c a IH]; [by eexists|].
  change ((c :: a) ++ fence ++ b) with (c :: (a ++ fence ++ b)).
  rewrite find_fence_cons.
  destruct (strip_prefix fence (c :: (a ++ fence ++ b))); [by eexists|].
  destruct IH as [[a' b'] ->]. by eexists.
Qed.

Lemma find_fence_None s : find_fence s = None -> ~ occurs fence s.
Proof. intros Hs Hocc. apply occurs_find_fence in Hocc as [x Hx]. congruence. Qed.

(** The pattern matches exactly the texts that hold a fenced block. *)
Lemma match_fenced_Some content group1 :
  match_fenced content = Some group1 -> fenced_block content.
Proof.
  unfold match_fenced.
  destruct (find_fence content) as [[a after]|] eqn:Ha; [|discriminate].
  apply find_fence_Some in Ha as [-> _].
  set (tagless := default after (strip_prefix json_tag after)).
  destruct (find_fence (skip_spaces tagless)) as [[g post]|] eqn:Hg; [|discriminate].
  intros _. apply find_fence_Some in Hg as [Hg _].
  destruct (skip_spaces_suffix tagless) as [w Hw]. rewrite Hg in Hw.
  assert (exists w', after = w' ++ tagless) as [w' Hw'].
  { unfold tagless. destruct (strip_prefix json_tag after) as [r|] eqn:Hr; simpl.
    - apply strip_prefix_Some in Hr. by exists json_tag.
    - by exists []. }
  exists a, (w' ++ w ++ g), post. rewrite Hw', Hw. by rewrite <- !(assoc_L (++)).
Qed.

Lemma match_fenced_first_block pre body post :
  ~ occurs fence (pre ++ [backtick; backtick]) ->
  ~ occurs fence (body ++ [backtick; backtick]) ->
  match_fenced (pre ++ fence ++ body ++ fence ++ post) = Some (skip_spaces (untag body)).
Proof.
  intros Hpre Hbody. unfold match_fenced.
  rewrite find_fence_first by done.
  rewrite untag_before_fence, skip_spaces_before_fence.
  rewrite find_fence_first; [done|].
  intros Hocc. apply Hbody.
  destruct (untag_suffix body) as [w1 Hw1].
  destruct (skip_spaces_suffix (untag body)) as [w2 Hw2].
  rewrite Hw1, Hw2, <- !(assoc_L (++)).
  by do 2 apply occurs_suffix.
Qed.

Lemma find_fence_then_fence a rest :
  occurs fence rest ->
  exists pre after, find_fence (a ++ fence ++ rest) = Some (pre, after) /\ occurs fence after.
Proof.
  intros Hocc. induction a as [|c a IH]; [by exists [], rest|].
  change ((c :: a) ++ fence ++ rest) with (c :: (a ++ fence ++ rest)).
  rewrite find_fence_cons.
  destruct (strip_prefix fence (c :: (a ++ fence ++ rest))) as [r|] eqn:Hr.
  - exists [], r. split; [done|]. apply strip_prefix_Some in Hr.
    assert (r = drop 3 ((c :: a) ++ fence) ++ rest) as ->.
    { rewrite <- drop_app_le by (rewrite length_app; simpl; lia).
      rewrite <- (assoc_L (++)).
      change ((c :: a) ++ fence ++ rest) with (c :: (a ++ fence ++ rest)).
      by rewrite Hr. }
    by apply occurs_suffix.
  - destruct IH as (pre & after & -> & Hafter). by exists (c :: pre), after.
Qed.

(** Every text that holds a fenced block splits around its first block. *)
Lemma fenced_block_first content :
  fenced_block content ->
  exists pre body post,
    content = pre ++ fence ++ body ++ fence ++ post /\
    ~ occurs fence (pre ++ [backtick; backtick]) /\
    ~ occurs fence (body ++ [backtick; backtick]).
Proof.
  intros (a & b & c & ->).
  destruct (find_fence_then_fence a (b ++ fence ++ c)) as (pre & after & Hf & Hocc);
    [by exists b, c|].
  apply find_fence_Some in Hf as [-> Hpre].
  apply occurs_find_fence in Hocc as [[body post] Hb].
  apply find_fence_Some in Hb as [-> Hbody].
  by exists pre, body, post.
Qed.

Lemma match_fenced_None content : ~ fenced_block content -> match_fenced content = None.
Proof.
  intros Hno. destruct (match_fenced content) as [g|] eqn:Hg; [|done].
  by apply match_fenced_Some in Hg.
Qed.

Lemma match_fenced_is_Some content : fenced_block content -> is_Some (match_fenced content).
Proof.
  intros (pre & body & post & -> & Hpre & Hbody)%fenced_block_first.
  rewrite match_fenced_first_block by done. by eexists.
Qed.

(** *** The backtracking matcher on [fencePattern] *)

Lemma is_space_not_backtick c : is_space c = true -> c <> backtick.
Proof. intros Hc ->. discriminate Hc. Qed.

Lemma find_fence_skip_char c s :
  c <> backtick ->
  find_fence (c :: s)
  = match find_fence s with
    | Some (before, rest) => Some (c :: before, rest)
    | None => None
    end.
Proof.
  intros Hc. rewrite find_fence_cons.
  destruct (strip_prefix fence (c :: s)) as [r|] eqn:Hr; [|done].
  apply strip_prefix_Some in Hr. injection Hr as -> _. done.
Qed.

Lemma find_fence_skip_spaces s :
  find_fence (skip_spaces s) = None -> find_fence s = None.
Proof.
  induction s as [|c s IH]; [done|]. cbn [skip_spaces].
  destruct (is_space c) eqn:Hc; [|done].
  intros H. rewrite find_fence_skip_char by by apply is_space_not_backtick.
  by rewrite IH.
Qed.

Lemma any_lazy_unfold {A} (k : jstext -> jstext -> option A) taken s :
  any_lazy k taken s
  = match k (reverse taken) s with
    | Some x => Some x
    | None =>
        match s with
        | c :: s' => any_lazy k (c :: taken) s'
        | [] => None
        end
    end.
Proof. by destruct s. Qed.

Lemma lazy_group_then_fence taken s :
  any_lazy (fun group rest => backtrack (Chars fence) rest group (fun _ g => Some g)) taken s
  = match find_fence s with
    | Some (before, _) => Some (reverse taken ++ before)
    | None => None
    end.
Proof.
  revert taken. induction s as [|c s IH]; intros taken; rewrite any_lazy_unfold.
  - reflexivity.
  - cbn [backtrack]. rewrite find_fence_cons.
    destruct (strip_prefix fence (c :: s)) as [r|]; [by rewrite app_nil_r|].
    rewrite IH. destruct (find_fence s) as [[before rest]|]; [|done].
    by rewrite reverse_cons, <- (assoc_L (++)).
Qed.

Lemma spaces_then_group s :
  spaces_greedy up_to_fence s = up_to_fence (skip_spaces s).
Proof.
  induction s as [|c s IH]; [done|]. cbn [spaces_greedy skip_spaces].
  destruct (is_space c) eqn:Hc; [|done].
  rewrite IH. destruct (up_to_fence (skip_spaces s)) as [g|] eqn:Hg; [done|].
  unfold up_to_fence in *.
  rewrite find_fence_skip_char by by apply is_space_not_backtick.
  destruct (find_fence (skip_spaces s)) as [[g r]|] eqn:Hf; [done|].
  by rewrite (find_fence_skip_spaces _ Hf).
Qed.

Lemma tag_then_spaces after r :
  strip_prefix json_tag after = Some r ->
  up_to_fence (skip_spaces r) = None ->
  up_to_fence (skip_spaces after) = None.
Proof.
  intros ->%strip_prefix_Some Hr. unfold up_to_fence in *.
  destruct (find_fence (skip_spaces r)) as [[g x]|] eqn:Hf; [done|].
  apply find_fence_skip_spaces in Hf.
  change (skip_spaces (json_tag ++ r)) with (106 :: 115 :: 111 :: 110 :: r)%N.
  rewrite !find_fence_skip_char by done. by rewrite Hf.
Qed.

Lemma spaces_greedy_ext {A} (k k' : jstext -> option A) s :
  (forall x, k x = k' x) -> spaces_greedy k s = spaces_greedy k' s.
Proof.
  intros Hk. induction s as [|c s IH]; cbn [spaces_greedy]; [apply Hk|].
  by rewrite IH, Hk.
Qed.

Lemma match_at_fencePattern s :
  match_at fencePattern s
  = match strip_prefix fence s with
    | Some after => up_to_fence (skip_spaces (default after (strip_prefix json_tag after)))
    | None => None
    end.
Proof.
  unfold match_at, fencePattern. cbn [backtrack].
  destruct (strip_prefix fence s) as [after|]; [|done].
  assert (Hrest : forall x,
    spaces_greedy
      (fun rest => any_lazy
         (fun group rest' =>
            match strip_prefix fence rest' with
            | Some _ => Some group
            | None => None
            end) [] rest) x
    = up_to_fence (skip_spaces x)).
  { intros x. rewrite <- spaces_then_group. apply spaces_greedy_ext.
    intros y. exact (lazy_group_then_fence [] y). }
  destruct (strip_prefix json_tag after) as [r|] eqn:Hr; rewrite !Hrest; [|done].
  change (default after (Some r)) with r.
  destruct (up_to_fence (skip_spaces r)) as [g|] eqn:Hg; [done|].
  by apply (tag_then_spaces after r).
Qed.

(** The closed form is the match of the pattern. *)
Lemma first_match_fencePattern content :
  first_match fencePattern content = match_fenced content.
Proof.
  induction content as [|c s IH]; [done|].
  cbn [first_match]. rewrite match_at_fencePattern, IH.
  unfold match_fenced at 2. rewrite find_fence_cons.
  destruct (strip_prefix fence (c :: s)) as [after|] eqn:Hafter.
  - fold (up_to_fence (skip_spaces (default after (strip_prefix json_tag after)))).
    destruct (up_to_fence (skip_spaces (default after (strip_prefix json_tag after))))
      as [g|] eqn:Hg; [done|].
    apply match_fenced_None. intros Hblock.
    assert (fenced_block (c :: s)) as Hcs.
    { destruct Hblock as (x & y & z & ->). by exists (c :: x), y, z. }
    apply match_fenced_is_Some in Hcs as [g Hcs]. unfold match_fenced in Hcs.
    rewrite find_fence_cons, Hafter in Hcs. unfold up_to_fence in Hg.
    destruct (find_fence (skip_spaces (default after (strip_prefix json_tag after))))
      as [[g' x]|]; discriminate.
  - unfold match_fenced. by destruct (find_fence s) as [[before rest]|].
Qed.

Lemma jsonStr_first_block pre body post :
  ~ occurs fence (pre ++ [backtick; backtick]) ->
  ~ occurs fence (body ++ [backtick; backtick]) ->
  jsonStr (pre ++ fence ++ body ++ fence ++ post) = trim (untag body).
Proof.
  intros Hpre Hbody. unfold jsonStr.
  rewrite first_match_fencePattern, match_fenced_first_block by done.
  apply trim_skip_spaces.
Qed.

Lemma jsonStr_unfenced content : ~ fenced_block content -> jsonStr content = trim content.
Proof.
  intros Hno. unfold jsonStr.
  by rewrite first_match_fencePattern, match_fenced_None.
Qed.

Section Extraction.
Context {JSValue T : Type} (JSON_parse : jstext -> Outcome JSValue) (cast : JSValue -> T).

Local Abbreviation parse := (parseJsonResponse JSON_parse cast).

(** C9. When the text holds a fenced block, [parseJsonResponse] parses the
    inner content of the first one, without its optional [json] tag and
    trimmed; every text that holds a fenced block splits in that way.
    Otherwise it parses the trimmed text. So the fenced example of the
    specification parses to what its bare payload parses to, which is what
    [JSON.parse] makes of that payload. *)
Theorem extraction_takes_first_fenced_block :
  (forall pre body post,
     ~ occurs fence (pre ++ [backtick; backtick]) ->
     ~ occurs fence (body ++ [backtick; backtick]) ->
     parse (pre ++ fence ++ body ++ fence ++ post)
     = do v <- JSON_parse (trim (untag body)); Returned (cast v)) /\
  (forall content,
     fenced_block content ->
     exists pre body post,
       content = pre ++ fence ++ body ++ fence ++ post /\
       ~ occurs fence (pre ++ [backtick; backtick]) /\
       ~ occurs fence (body ++ [backtick; backtick])) /\
  (forall content,
     ~ fenced_block content ->
     parse content = do v <- JSON_parse (trim content); Returned (cast v)) /\
  parse fencedExample = parse rawExample /\
  parse rawExample = (do v <- JSON_parse rawExample; Returned (cast v)) /\
  (forall v, JSON_parse rawExample = Returned v ->
     parse fencedExample = Returned (cast v) /\ parse rawExample = Returned (cast v)).
Proof.
  assert (Hf : jsonStr fencedExample = rawExample) by reflexivity.
  assert (Hr : jsonStr rawExample = rawExample) by reflexivity.
  unfold parseJsonResponse. split_and!.
  - intros pre body post Hpre Hbody. by rewrite jsonStr_first_block.
  - apply fenced_block_first.
  - intros content Hno. by rewrite jsonStr_unfenced.
  - by rewrite Hf, Hr.
  - by rewrite Hr.
  - intros v Hv. by rewrite Hf, Hr, Hv.
Qed.

End Extraction.

(** * Further properties of the router *)

(** ** Wrapping a payload in a fence *)

(** A fence cannot straddle another character than a backtick. *)
Lemma occurs_fence_split a c b :
  c <> backtick -> occurs fence (a ++ c :: b) -> occurs fence a \/ occurs fence b.
Proof.
  intros Hc (x & y & Hxy). revert x Hxy. induction a as [|a0 a IH]; intros x Hxy.
  - destruct x as [|x0 x]; simpl in Hxy.
    + injection Hxy as -> _. done.
    + injection Hxy as _ ->. right. by exists x, y.
  - destruct x as [|x0 x].
    + left. simpl in Hxy. injection Hxy as -> Hxy.
      destruct a as [|a1 a]; simpl in Hxy; [injection Hxy as -> _; done|].
      injection Hxy as -> Hxy.
      destruct a as [|a2 a]; simpl in Hxy; [injection Hxy as -> _; done|].
      injection Hxy as -> _. by exists [], a.
    + simpl in Hxy. injection Hxy as _ Hxy.
      destruct (IH x Hxy) as [Ha|Hb]; [left|by right].
      by apply (occurs_suffix _ [a0]).
Qed.

Lemma occurs_fence_skip c b : c <> backtick -> occurs fence (c :: b) -> occurs fence b.
Proof.
  intros Hc Hocc. destruct (occurs_fence_split [] c b Hc Hocc) as [(x & y & Hxy)|]; [|done].
  apply (f_equal length) in Hxy. rewrite !length_app in Hxy. simpl in Hxy. lia.
Qed.

Lemma two_backticks_no_fence : ~ occurs fence [backtick; backtick].
Proof.
  intros (x & y & Hxy). apply (f_equal length) in Hxy.
  rewrite !length_app in Hxy. simpl in Hxy. lia.
Qed.

Lemma no_fence_no_block payload : ~ occurs fence payload -> ~ fenced_block payload.
Proof. intros Hno (a & b & c & ->). apply Hno. by exists a, (b ++ fence ++ c). Qed.

Lemma trim_between_newlines payload : trim (newline ++ payload ++ newline) = trim payload.
Proof.
  unfold trim. change (skip_spaces (newline ++ payload ++ newline))
    with (skip_spaces (payload ++ newline)).
  assert (H : forall x, skip_spaces (reverse (x ++ newline)) = skip_spaces (reverse x)).
  { intros x. by rewrite reverse_app. }
  assert (Hs : forall x, exists y,
             skip_spaces (x ++ newline) = y /\
             skip_spaces (reverse y) = skip_spaces (reverse (skip_spaces x))).
  { induction x as [|c x (y & Hy & IH)].
    - by exists [].
    - cbn [app skip_spaces]. destruct (is_space c) eqn:Hc.
      + by exists y.
      + exists (c :: x ++ newline). split; [done|].
        change (c :: x ++ newline) with ((c :: x) ++ newline). apply H. }
  destruct (Hs payload) as (y & -> & ->). done.
Qed.

Section FenceRoundTrip.
Context {JSValue T : Type} (JSON_parse : jstext -> Outcome JSValue) (cast : JSValue -> T).

(** X1 ([parseJsonResponse]). A payload in which no fence occurs is parsed
    the same way bare and fenced: inside a block tagged [json] or inside an
    untagged block, with a line feed after the opening fence and before the
    closing one, [JSON.parse] receives the text it receives for the bare
    payload, so the three calls return or throw alike. *)
Theorem fenced_payload_parses_as_bare (payload : jstext) :
  ~ occurs fence payload ->
  parseJsonResponse JSON_parse cast (fence ++ json_tag ++ newline ++ payload ++ newline ++ fence)
  = parseJsonResponse JSON_parse cast payload /\
  parseJsonResponse JSON_parse cast (fence ++ newline ++ payload ++ newline ++ fence)
  = parseJsonResponse JSON_parse cast payload.
Proof.
  intros Hno. unfold parseJsonResponse.
  rewrite (jsonStr_unfenced payload) by by apply no_fence_no_block.
  assert (Hbody : ~ occurs fence (newline ++ payload ++ newline ++ [backtick; backtick])).
  { intros Hocc.
    change (newline ++ payload ++ newline ++ [backtick; backtick])
      with (10%N :: (payload ++ 10%N :: [backtick; backtick])) in Hocc.
    apply occurs_fence_skip in Hocc; [|done].
    apply occurs_fence_split in Hocc as [?|Hocc]; [done|by apply two_backticks_no_fence|done]. }
  split.
  - pose proof (jsonStr_first_block [] (json_tag ++ newline ++ payload ++ newline) [])
      as Hj.
    rewrite !app_nil_l, app_nil_r, <- !(assoc_L (++)) in Hj. rewrite Hj.
    + change (untag (json_tag ++ newline ++ payload ++ newline))
        with (newline ++ payload ++ newline).
      by rewrite trim_between_newlines.
    + apply two_backticks_no_fence.
    + intros Hocc. apply Hbody.
      do 4 (apply occurs_fence_skip in Hocc; [|done]). exact Hocc.
  - pose proof (jsonStr_first_block [] (newline ++ payload ++ newline) []) as Hj.
    rewrite !app_nil_l, app_nil_r, <- !(assoc_L (++)) in Hj. rewrite Hj.
    + change (untag (newline ++ payload ++ newline)) with (newline ++ payload ++ newline).
      by rewrite trim_between_newlines.
    + apply two_backticks_no_fence.
    + exact Hbody.
Qed.
End FenceRoundTrip.

(** ** What [searchAndFill] and [modifyTable] leave alone *)

Lemma realignRow_lookup_other n cand o j :
  j < length o - 1 -> realignRow n cand o !! j = o !! j.
Proof.
  intros Hj. unfold realignRow. destruct (find_match cand o); [|done].
  simpl. case_decide; [by apply assign_last_lookup_other|done].
Qed.

Lemma normalizeRows_aligned n os rs :
  Forall (fun r => length r = n) rs -> normalizeRows n os rs = rs.
Proof.
  intros Hrs. apply list_eq. intros i. rewrite lookup_normalizeRows.
  destruct (rs !! i) as [r|] eqn:Hr; [|done]. simpl.
  by rewrite normalizeRow_aligned by by eapply (Forall_lookup_1 _ _ _ _ Hrs).
Qed.

Lemma reconcileModify_rectangular_id t c : rectangular c -> reconcileModify t c = c.
Proof.
  intros Hc. unfold reconcileModify. rewrite normalizeRows_aligned by done. by destruct c.
Qed.

(** X2 ([modifyTable], the repair of lines 824-838). The repair is
    idempotent, and a repaired table no longer depends on the original it is
    repaired against: repairing [reconcileModify t2 p] against any table [t1]
    gives it back unchanged. *)
Theorem reconcileModify_idempotent (t1 t2 p : TableData) :
  reconcileModify t1 (reconcileModify t2 p) = reconcileModify t2 p.
Proof. apply reconcileModify_rectangular_id, reconcileModify_rectangular. Qed.

Lemma mergeCell_again n o c col :
  col < n -> mergeCell n o (mergeCell n o c <$> seq 0 n) col = mergeCell n o c col.
Proof.
  intros Hlt. unfold mergeCell at 1. rewrite lookup_mergeCells by done.
  unfold mergeCell. destruct (decide (col = 0)); [done|].
  rewrite !or_empty_js_or. change (default "" (Some ?x)) with x.
  set (O := default "" (o !! col)). set (C := default "" (c !! col)).
  destruct (decide (col < n - 1)).
  - by destruct (decide (O = "")).
  - destruct (decide (C = "")) as [HC|HC].
    + by destruct (decide (O = "")).
    + by destruct (decide (C = "")).
Qed.

(** X3 ([searchAndFill], the path without realignment). When the answer has
    as many rows as the table, the reconciled table is a fixed point: feeding
    the result back as the answer for the same original table returns it
    unchanged. *)
Theorem reconcileSearch_stable (t p out : TableData) :
  length (rows p) = length (rows t) ->
  reconcileSearch t p = Returned out ->
  reconcileSearch t out = Returned out.
Proof.
  intros Hlen Hout. rewrite reconcileSearch_merged in Hout by done.
  injection Hout as <-. set (n := length (headers t)).
  assert (Hrows : normalizeRows n (rows t)
            (zip_with (fun o c => mergeCell n o c <$> seq 0 n) (rows t) (rows p))
          = zip_with (fun o c => mergeCell n o c <$> seq 0 n) (rows t) (rows p)).
  { apply normalizeRows_aligned, Forall_lookup_2. intros i r Hr.
    apply lookup_zip_with_Some in Hr as (o & c & -> & _ & _).
    by rewrite length_fmap, length_seq. }
  rewrite Hrows. rewrite reconcileSearch_merged; simpl.
  2: { rewrite length_zip_with. lia. }
  fold n. rewrite normalizeRows_aligned.
  2: { apply Forall_lookup_2. intros i r Hr.
       apply lookup_zip_with_Some in Hr as (o & c & -> & _ & _).
       by rewrite length_fmap, length_seq. }
  do 2 f_equal. apply list_eq. intros i. rewrite !lookup_zip_with.
  destruct (rows t !! i) as [o|]; [|done]. simpl.
  destruct (rows p !! i) as [c|]; [|done]. simpl. f_equal.
  apply list_eq. intros col. rewrite !list_lookup_fmap.
  destruct (seq 0 n !! col) as [j|] eqn:Hj; [|done]. simpl. f_equal.
  apply lookup_seq in Hj as [-> Hj]. by apply mergeCell_again.
Qed.

Section RouterInvariants.
Context {JSValue : Type} (JSON_parse : jstext -> Outcome JSValue).
Context (as_Search : JSValue -> SearchResult).
Context (as_Modify : JSValue -> ModifyResult).
Context {InvokeParams : Type} (invokeLLM : InvokeParams -> Outcome InvokeResult).
Context (searchPrompt modifyPrompt : TableData -> string -> InvokeParams).

Local Abbreviation search := (searchAndFill JSON_parse as_Search invokeLLM searchPrompt).
Local Abbreviation modify := (modifyTable JSON_parse as_Modify invokeLLM modifyPrompt).

(** Every result of [searchAndFill] is the original table or comes from one
    of the two repairs. *)
Lemma search_returned_table t instr r :
  search t instr = Returned r ->
  filled r = t \/
  (exists c, length (rows c) = length (rows t) /\
     filled r = mkTable (headers t)
       (zip_with (fun o c => mergeCell (length (headers t)) o c
                               <$> seq 0 (length (headers t)))
                 (rows t) (rows c))) \/
  (exists c, length (rows c) <> length (rows t) /\
     filled r = mkTable (headers t)
       (normalizeRows (length (headers t)) (rows t)
          (realignRow (length (headers t)) (rows c) <$> rows t))).
Proof.
  intros Hr.
  destruct (search_paths JSON_parse invokeLLM searchPrompt t instr)
    as [(e & Hg)|[(result & Hg & Hc)|[(content & e & Ha & Hp)|(content & v & Ha & Hp)]]].
  - rewrite (search_gateway_raises _ as_Search _ _ _ _ _ Hg) in Hr. discriminate.
  - rewrite (search_without_content _ as_Search _ _ _ _ _ Hg Hc) in Hr. discriminate.
  - rewrite (search_degraded _ as_Search _ _ _ _ _ _ Ha Hp) in Hr. left. by simplify_eq.
  - right. destruct (decide (length (rows (filled (as_Search v))) = length (rows t)))
      as [Hlen|Hlen].
    + left. exists (filled (as_Search v)). split; [done|].
      rewrite (search_success_merged _ _ _ _ _ _ _ _ Ha Hp Hlen) in Hr. simplify_eq. simpl.
      f_equal. apply normalizeRows_aligned, Forall_lookup_2. intros i row Hrow.
      apply lookup_zip_with_Some in Hrow as (o & c & -> & _ & _).
      by rewrite length_fmap, length_seq.
    + right. exists (filled (as_Search v)). split; [done|].
      rewrite (search_success_realigned _ _ _ _ _ _ _ _ Ha Hp Hlen) in Hr. by simplify_eq.
Qed.

(** X4 ([searchAndFill]). On every result that [searchAndFill] returns,
    the filled one and the degraded one, a row of the original table that has
    at least two cells keeps its first cell at its row index, provided the
    table has at least one header. *)
Theorem search_keeps_first_column (t : TableData) (instr : string) (r : SearchResult) :
  search t instr = Returned r ->
  0 < length (headers t) ->
  forall i o, rows t !! i = Some o -> 2 <= length o ->
    exists row, rows (filled r) !! i = Some row /\ row !! 0 = o !! 0.
Proof.
  intros Hr Hn i o Ho Hlen.
  destruct (lookup_lt_is_Some_2 o 0 ltac:(lia)) as [k Hk].
  destruct (search_returned_table t instr r Hr)
    as [->|[(c & Hc & ->)|(c & Hc & ->)]]; simpl.
  - by exists o.
  - destruct (lookup_lt_is_Some_2 (rows c) i) as [row Hrow].
    { rewrite Hc. by eapply lookup_lt_Some. }
    eexists. rewrite lookup_zip_with, Ho, Hrow. simpl. split; [done|].
    rewrite lookup_mergeCells by done. unfold mergeCell.
    case_decide; [|done]. by rewrite or_empty_default, Hk.
  - eexists. rewrite (lookup_realigned_rows _ _ _ _ _ Ho). split; [done|].
    rewrite lookup_normalizeRow by done.
    rewrite realignRow_lookup_other by lia. by rewrite Hk.
Qed.

(** X5 ([searchAndFill]). On every result that [searchAndFill] returns, a
    cell of the original table that is not empty and stands before the last
    column, in a row as wide as the headers, is returned unchanged at its
    position: the answer of the model can fill an empty cell there, never
    replace a filled one. *)
Theorem search_keeps_filled_cells (t : TableData) (instr : string) (r : SearchResult) :
  search t instr = Returned r ->
  forall i o col x,
    rows t !! i = Some o -> length o = length (headers t) ->
    col < length (headers t) - 1 -> o !! col = Some x -> x <> "" ->
    exists row, rows (filled r) !! i = Some row /\ row !! col = Some x.
Proof.
  intros Hr i o col x Ho Hal Hcol Hx Hne.
  destruct (search_returned_table t instr r Hr)
    as [->|[(c & Hc & ->)|(c & Hc & ->)]]; simpl.
  - by exists o.
  - destruct (lookup_lt_is_Some_2 (rows c) i) as [row Hrow].
    { rewrite Hc. by eapply lookup_lt_Some. }
    eexists. rewrite lookup_zip_with, Ho, Hrow. simpl. split; [done|].
    rewrite lookup_mergeCells by lia. unfold mergeCell.
    case_decide; [by rewrite or_empty_default, Hx|].
    case_decide; [|lia]. rewrite or_empty_js_or, Hx. simpl.
    by destruct (decide (x = "")).
  - eexists. rewrite (lookup_realigned_rows _ _ _ _ _ Ho). split; [done|].
    rewrite lookup_normalizeRow by lia.
    rewrite realignRow_lookup_other by lia. by rewrite Hx.
Qed.

(** X6 ([searchAndFill], realignment on a table of one column). When the
    table has one header, the row counts differ and the candidate rows hold a
    match for the key of an original row [[k]], the returned row is the last
    cell of the matched row alone: the key itself is overwritten, since the
    last column is also the first. *)
Theorem search_single_column_takes_matched_cell (t : TableData) (instr : string) :
  forall content v i k m,
    answered invokeLLM (searchPrompt t instr) content ->
    JSON_parse (jsonStr content) = Returned v ->
    length (rows (filled (as_Search v))) <> length (rows t) ->
    length (headers t) = 1 ->
    rows t !! i = Some [k] ->
    find_match (rows (filled (as_Search v))) [k] = Some m ->
    exists out x,
      search t instr = Returned (mkSearch out (searchSummary (as_Search v))) /\
      last m = Some x /\
      rows out !! i = Some [x].
Proof.
  intros content v i k m Ha Hp Hlen Hn Ho Hm.
  destruct (matched_last_cell_defined _ _ _ Hm ltac:(done)) as [x Hx].
  eexists _, x. split; [by eapply search_success_realigned|].
  split; [by rewrite <- last_cell_last|]. simpl.
  rewrite (lookup_realigned_rows _ _ _ _ _ Ho), Hn.
  assert (1 <= length m) as Hlm.
  { destruct m; [discriminate Hx|simpl; lia]. }
  by rewrite (realignRow_matched _ _ _ _ Hm Hlm), Hx.
Qed.

(** X7 ([modifyTable]). When the parsed answer is already rectangular,
    [modifyTable] returns it exactly as parsed, with its explanation: the
    repair changes nothing and the original table plays no part. *)
Theorem modify_returns_rectangular_candidate (t : TableData) (instr : string) :
  forall content v,
    answered invokeLLM (modifyPrompt t instr) content ->
    JSON_parse (jsonStr content) = Returned v ->
    rectangular (modified (as_Modify v)) ->
    modify t instr
    = Returned (mkModify (modified (as_Modify v)) (explanation (as_Modify v))).
Proof.
  intros content v Ha Hp Hrect.
  rewrite (modify_success _ _ _ _ _ _ _ _ Ha Hp).
  by rewrite reconcileModify_rectangular_id.
Qed.

End RouterInvariants.

(** * The table editor *)

Lemma filter_index_past {A} index (l : list A) i0 :
  index < i0 -> filter_index (fun i => bool_decide (i <> index)) i0 l = l.
Proof.
  revert i0. induction l as [|x l IH]; intros i0 Hlt; [done|].
  cbn [filter_index]. rewrite bool_decide_true by lia. by rewrite IH by lia.
Qed.

(** Filtering out one index is the deletion at that index. *)
Lemma filter_index_delete {A} index (l : list A) i0 :
  i0 <= index ->
  filter_index (fun i => bool_decide (i <> index)) i0 l = delete (index - i0) l.
Proof.
  revert i0. induction l as [|x l IH]; intros i0 Hle; [done|].
  cbn [filter_index]. destruct (decide (i0 = index)) as [->|Hne].
  - rewrite bool_decide_false by auto. rewrite filter_index_past by lia.
    by rewrite Nat.sub_diag.
  - rewrite bool_decide_true by done. rewrite IH by lia.
    replace (index - i0) with (S (index - S i0)) by lia. done.
Qed.

Lemma delete_beyond {A} (l : list A) i : length l <= i -> delete i l = l.
Proof.
  intros Hi. rewrite delete_take_drop, take_ge, drop_ge by lia. by rewrite app_nil_r.
Qed.

Lemma length_delete_at {A} (l : list A) i :
  length (delete i l) = if decide (i < length l) then length l - 1 else length l.
Proof.
  case_decide.
  - apply length_delete. by apply lookup_lt_is_Some_2.
  - by rewrite delete_beyond by lia.
Qed.

Lemma replace_index_lookup {A} index (v : A) l j :
  replace_index index v l !! j = (fun x => if decide (j = index) then v else x) <$> l !! j.
Proof. unfold replace_index. by rewrite list_lookup_imap. Qed.

Lemma replace_index_same index (v : string) l :
  l !! index = Some v -> replace_index index v l = l.
Proof.
  intros Hv. apply list_eq. intros j. rewrite replace_index_lookup.
  destruct (l !! j) as [x|] eqn:Hj; [|done]. simpl.
  case_decide; [|done]. subst j. congruence.
Qed.

Lemma table_eta t : mkTable (headers t) (rows t) = t.
Proof. by destruct t. Qed.

(** X8 (table editor). The editing callbacks keep a rectangular table
    rectangular: [addRow], [addColumn], a successful [deleteRow] or
    [deleteColumn], and [handleCellBlur] when it commits an edit of a data
    cell or of a header that exists. *)
Theorem editor_keeps_tables_rectangular (t : TableData) :
  rectangular t ->
  rectangular (addRow t) /\
  rectangular (addColumn t) /\
  (forall i t', deleteRow i t = Some t' -> rectangular t') /\
  (forall i t', deleteColumn i t = Some t' -> rectangular t') /\
  (forall st st' t',
     handleCellBlur st t = (st', Changed t') ->
     (forall col, editingCell st = Some ((-1)%Z, col) -> col < length (headers t)) ->
     rectangular t').
Proof.
  unfold rectangular. intros Hrect. split_and!.
  - simpl. apply Forall_app. split; [done|].
    constructor; [apply length_replicate|constructor].
  - simpl. apply Forall_fmap. eapply Forall_impl; [exact Hrect|].
    intros r Hr. simpl. rewrite !length_app, Hr. done.
  - intros i t'. unfold deleteRow. case_decide; [done|]. intros [= <-]. simpl.
    rewrite filter_index_delete by lia. apply Forall_forall. intros r Hr.
    apply list_elem_of_delete_inv in Hr. by eapply (proj1 (Forall_forall _ _) Hrect).
  - intros i t'. unfold deleteColumn. case_decide; [done|]. intros [= <-]. simpl.
    apply Forall_fmap. eapply Forall_impl; [exact Hrect|].
    intros r Hr. simpl. rewrite !filter_index_delete by lia.
    by rewrite !length_delete_at, Hr.
  - intros st st' t'. unfold handleCellBlur.
    destruct (editingCell st) as [[row col]|] eqn:Hcell; [|done].
    intros [= _ Hch] Hcol. revert Hch. case_decide as Hrow.
    + subst row. specialize (Hcol col eq_refl).
      case_decide; [|lia]. intros [= <-]. simpl. by rewrite length_insert.
    + intros [= <-]. simpl. apply Forall_lookup_2. intros i r.
      rewrite list_lookup_imap. intros (r0 & Hr0 & ->)%fmap_Some.
      pose proof (Forall_lookup_1 _ _ _ _ Hrect Hr0) as Hlen.
      case_decide; [|done]. unfold replace_index. by rewrite length_imap.
Qed.

(** X9 ([addRow], [deleteRow]). Deleting the row that [addRow] has just
    appended gives the table back, when the table had a row; on a table
    without rows the appended row is the only one and [deleteRow] refuses to
    delete it, whatever the index. *)
Theorem addRow_then_deleteRow (t : TableData) :
  (rows t <> [] -> deleteRow (length (rows t)) (addRow t) = Some t) /\
  (rows t = [] -> forall i, deleteRow i (addRow t) = None).
Proof.
  split.
  - intros Hne. unfold deleteRow, addRow. simpl.
    case_decide as Hlen.
    { rewrite length_app in Hlen. simpl in Hlen. destruct (rows t); [done|simpl in Hlen; lia]. }
    rewrite filter_index_delete by lia. rewrite Nat.sub_0_r, delete_middle, app_nil_r.
    by rewrite table_eta.
  - intros Hnil i. unfold deleteRow, addRow. simpl. rewrite Hnil. done.
Qed.

(** X10 ([addColumn], [deleteColumn]). On a rectangular table with at least
    one header, deleting the column that [addColumn] has just appended gives
    the table back. *)
Theorem addColumn_then_deleteColumn (t : TableData) :
  rectangular t -> headers t <> [] ->
  deleteColumn (length (headers t)) (addColumn t) = Some t.
Proof.
  intros Hrect Hne. unfold deleteColumn, addColumn. simpl.
  case_decide as Hlen.
  { rewrite length_app in Hlen. simpl in Hlen. destruct (headers t); [done|simpl in Hlen; lia]. }
  rewrite filter_index_delete by lia. rewrite Nat.sub_0_r, delete_middle, app_nil_r.
  rewrite <- (table_eta t) at 3. do 2 f_equal.
  rewrite <- list_fmap_compose. rewrite <- (list_fmap_id (rows t)) at 2.
  apply Forall_fmap_ext_1. eapply Forall_impl; [exact Hrect|].
  intros r Hr. simpl. rewrite filter_index_delete by lia.
  by rewrite Nat.sub_0_r, <- Hr, delete_middle, app_nil_r.
Qed.

(** X11 ([deleteRow]). A table of at most one row is never changed. On a
    table of more rows the headers stay, the rows before the index stay in
    place, those after it move up by one, and the count drops by one exactly
    when the index is that of a row: an index past the end deletes nothing
    yet the callback still reports a change. *)
Theorem deleteRow_removes_one_row (i : nat) (t : TableData) :
  (length (rows t) <= 1 -> deleteRow i t = None) /\
  (1 < length (rows t) ->
   exists t', deleteRow i t = Some t' /\
     headers t' = headers t /\
     length (rows t') = (if decide (i < length (rows t))
                         then length (rows t) - 1 else length (rows t)) /\
     (forall j, j < i -> rows t' !! j = rows t !! j) /\
     (forall j, i <= j -> rows t' !! j = rows t !! S j)).
Proof.
  unfold deleteRow. split; intros Hlen; case_decide; try lia; [done|].
  eexists. split; [done|]. simpl. rewrite filter_index_delete by lia.
  rewrite Nat.sub_0_r. split_and!; [done|apply length_delete_at|..].
  - intros j Hj. by apply list_lookup_delete_lt.
  - intros j Hj. by apply list_lookup_delete_ge.
Qed.

(** X12 ([deleteColumn]). A table of at most one header is never changed.
    Otherwise the header at the index is removed and, in every row, the cells
    before the index stay and those after it move left by one; the number of
    rows is unchanged. *)
Theorem deleteColumn_removes_one_column (i : nat) (t : TableData) :
  (length (headers t) <= 1 -> deleteColumn i t = None) /\
  (1 < length (headers t) ->
   exists t', deleteColumn i t = Some t' /\
     headers t' = delete i (headers t) /\
     length (rows t') = length (rows t) /\
     (forall k r, rows t !! k = Some r ->
        exists r', rows t' !! k = Some r' /\
          (forall j, j < i -> r' !! j = r !! j) /\
          (forall j, i <= j -> r' !! j = r !! S j))).
Proof.
  unfold deleteColumn. split; intros Hlen; case_decide; try lia; [done|].
  eexists. split; [done|]. simpl. rewrite filter_index_delete by lia.
  rewrite Nat.sub_0_r. split_and!; [done|by rewrite length_fmap|].
  intros k r Hr. rewrite list_lookup_fmap, Hr. simpl. eexists. split; [done|].
  rewrite filter_index_delete by lia. rewrite Nat.sub_0_r. split.
  - intros j Hj. by apply list_lookup_delete_lt.
  - intros j Hj. by apply list_lookup_delete_ge.
Qed.

(** X13 ([handleCellBlur]). Committing the edit of a data cell closes the
    editor and returns a table with the same headers, the same number of
    rows and the same row lengths, in which the cell at the edited row and
    column holds the edited text and every other cell is unchanged. *)
Theorem cell_edit_changes_one_cell (st : EditorState) (t : TableData) (row col : nat) :
  editingCell st = Some (Z.of_nat row, col) ->
  exists t',
    handleCellBlur st t = (mkEditor None "", Changed t') /\
    headers t' = headers t /\
    length (rows t') = length (rows t) /\
    forall i r, rows t !! i = Some r ->
      exists r', rows t' !! i = Some r' /\
        length r' = length r /\
        forall j c, r !! j = Some c ->
          r' !! j = Some (if decide (i = row /\ j = col) then editValue st else c).
Proof.
  intros Hcell. unfold handleCellBlur. rewrite Hcell.
  case_decide as Hrow; [lia|]. eexists. split; [done|]. simpl.
  split; [done|]. split; [apply length_imap|].
  intros i r Hr. rewrite list_lookup_imap, Hr. simpl. eexists. split; [done|].
  case_decide as Hi.
  - apply Nat2Z.inj in Hi. subst i. split; [unfold replace_index; apply length_imap|].
    intros j c Hc. rewrite replace_index_lookup, Hc. simpl.
    by repeat case_decide; try tauto.
  - split; [done|]. intros j c Hc. rewrite Hc.
    case_decide as H; [|done]. destruct H as [-> _]. done.
Qed.

(** X14 ([handleCellPress], [handleCellBlur]). Pressing a header or a data
    cell and leaving it without typing reports the table unchanged, since
    the editor starts from the current value of the cell; and a press on a
    table that is not editable leaves the editor as it is. *)
Theorem press_then_blur_keeps_table (st : EditorState) (t : TableData) (col : nat)
    (value : string) :
  (headers t !! col = Some value ->
   handleCellBlur (handleCellPress true (-1) col value st) t
   = (mkEditor None "", Changed t)) /\
  (forall i r, rows t !! i = Some r -> r !! col = Some value ->
   handleCellBlur (handleCellPress true (Z.of_nat i) col value st) t
   = (mkEditor None "", Changed t)) /\
  (forall row, handleCellPress false row col value st = st).
Proof.
  split_and!; [| |done].
  - intros Hv. unfold handleCellBlur, handleCellPress. simpl.
    case_decide; [|by apply lookup_lt_Some in Hv].
    by rewrite list_insert_id, table_eta.
  - intros i r Hr Hv. unfold handleCellBlur, handleCellPress. simpl.
    case_decide; [lia|].
    assert (imap (fun k r0 => if decide (Z.of_nat k = Z.of_nat i)
                              then replace_index col value r0 else r0) (rows t)
            = rows t) as ->; [|by rewrite table_eta].
    apply list_eq. intros k. rewrite list_lookup_imap.
    destruct (rows t !! k) as [r0|] eqn:Hk; [|done]. simpl. f_equal.
    case_decide as Hi; [|done]. apply Nat2Z.inj in Hi. subst k.
    assert (r0 = r) as -> by congruence. by apply replace_index_same.
Qed.

(** * The document store *)

Lemma getDocument_cons id d docs :
  getDocument id (d :: docs)
  = if decide (doc_id d = id) then Some d else getDocument id docs.
Proof.
  unfold getDocument. cbn [list_find]. case_decide; [done|].
  by destruct (list_find (fun doc => doc_id doc = id) docs) as [[i x]|].
Qed.

Lemma getDocument_Some id docs d : getDocument id docs = Some d -> doc_id d = id.
Proof.
  unfold getDocument. intros ([i x] & Hf & ->)%fmap_Some.
  by apply list_find_Some in Hf as (_ & ? & _).
Qed.

Lemma getDocument_None id docs :
  getDocument id docs = None <-> Forall (fun doc => doc_id doc <> id) docs.
Proof. unfold getDocument. rewrite fmap_None. apply list_find_None. Qed.

Lemma getDocument_filter_other id id' docs :
  id' <> id ->
  getDocument id' (filter (fun doc => doc_id doc <> id) docs) = getDocument id' docs.
Proof.
  intros Hne. induction docs as [|d docs IH]; [done|].
  rewrite filter_cons, (getDocument_cons id' d docs).
  destruct (decide (doc_id d <> id)) as [Hd|Hd].
  - rewrite getDocument_cons. case_decide; [done|apply IH].
  - apply dec_stable in Hd. case_decide; [congruence|apply IH].
Qed.

Lemma getDocument_filter_same id docs :
  getDocument id (filter (fun doc => doc_id doc <> id) docs) = None.
Proof.
  apply getDocument_None, Forall_forall. intros d Hd.
  by apply list_elem_of_filter in Hd as [? _].
Qed.

Lemma filter_keeps_length {A} (P : A -> Prop) `{!forall x, Decision (P x)} (l : list A) :
  length (filter P l) = length l <-> Forall P l.
Proof.
  induction l as [|x l IH]; [by split|]. rewrite filter_cons. case_decide as Hx.
  - simpl. rewrite Forall_cons. split.
    + intros [= Hl]. split; [done|]. by apply IH.
    + intros [_ Hl]. f_equal. by apply IH.
  - pose proof (length_filter P l). simpl. split; [lia|].
    by intros [? _]%Forall_cons.
Qed.

Lemma getDocument_insert_other id id' index d d' docs :
  id' <> id ->
  list_find (fun doc => doc_id doc = id) docs = Some (index, d) ->
  doc_id d' = id ->
  getDocument id' (<[index := d']> docs) = getDocument id' docs.
Proof.
  intros Hne Hf Hd'. revert index Hf. induction docs as [|d0 docs IH]; intros index Hf; [done|].
  cbn [list_find] in Hf. case_decide as Hd0.
  - injection Hf as <- <-. simpl. rewrite !getDocument_cons.
    repeat case_decide; congruence.
  - apply fmap_Some in Hf as ([k x] & Hk & [= -> ->]). simpl.
    rewrite !getDocument_cons. case_decide; [done|]. by apply IH.
Qed.

Lemma getDocument_insert_same id index d d' docs :
  list_find (fun doc => doc_id doc = id) docs = Some (index, d) ->
  doc_id d' = id ->
  getDocument id (<[index := d']> docs) = Some d'.
Proof.
  intros Hf Hd'. revert index Hf. induction docs as [|d0 docs IH]; intros index Hf; [done|].
  cbn [list_find] in Hf. case_decide as Hd0.
  - injection Hf as <- <-. simpl. rewrite getDocument_cons. by case_decide.
  - apply fmap_Some in Hf as ([k x] & Hk & [= -> ->]). simpl.
    rewrite getDocument_cons. case_decide; [done|]. by apply IH.
Qed.

Section DocumentStoreProperties.
Variable setItem : list Document -> Outcome unit.

(** X15 ([createDocument], [getDocument]). When the write to storage
    succeeds, the new document is put in front of the list with the given
    identifier, title and table and with both time stamps equal;
    [getDocument] then finds it under its identifier, and finds under any
    other identifier what it found before. *)
Theorem created_document_is_found (id now title : string) (tableData : TableData)
    (description : option string) (documents : list Document) :
  (forall docs, setItem docs = Returned tt) ->
  exists doc,
    createDocument setItem id now title tableData description documents
    = (doc, doc :: documents) /\
    doc_id doc = id /\ doc_title doc = title /\ doc_tableData doc = tableData /\
    createdAt doc = now /\ updatedAt doc = now /\
    getDocument id (doc :: documents) = Some doc /\
    (forall id', id' <> id ->
       getDocument id' (doc :: documents) = getDocument id' documents).
Proof.
  intros Hset. eexists. unfold createDocument, saveDocuments. rewrite Hset.
  split; [done|]. simpl. split_and!; try done.
  - rewrite getDocument_cons. by case_decide.
  - intros id' Hne. rewrite getDocument_cons. simpl. by case_decide.
Qed.

(** X16 ([updateDocument], [getDocument]). When the write to storage
    succeeds: an unknown identifier returns [null] and changes nothing; a
    known one returns the updated document, which keeps its identifier and
    creation time and takes the new update time, the list keeps its length,
    [getDocument] finds the updated document under the identifier and is
    unchanged under every other identifier. *)
Theorem update_changes_one_document (id : string) (updates : Updates) (now : string)
    (documents : list Document) :
  (forall docs, setItem docs = Returned tt) ->
  (getDocument id documents = None ->
   updateDocument setItem id updates now documents = (None, documents)) /\
  (forall doc, getDocument id documents = Some doc ->
   exists docs',
     updateDocument setItem id updates now documents
     = (Some (applyUpdates doc updates now), docs') /\
     doc_id (applyUpdates doc updates now) = id /\
     createdAt (applyUpdates doc updates now) = createdAt doc /\
     updatedAt (applyUpdates doc updates now) = now /\
     length docs' = length documents /\
     getDocument id docs' = Some (applyUpdates doc updates now) /\
     (forall id', id' <> id -> getDocument id' docs' = getDocument id' documents)).
Proof.
  intros Hset. unfold updateDocument, saveDocuments. split.
  - unfold getDocument. intros Hnone%fmap_None. by rewrite Hnone.
  - intros doc Hdoc. pose proof (getDocument_Some _ _ _ Hdoc) as Hid.
    unfold getDocument in Hdoc. apply fmap_Some in Hdoc as ([index x] & Hf & ->).
    rewrite Hf, Hset. simpl. eexists. split; [done|]. split_and!; try done.
    + apply length_insert.
    + by apply (getDocument_insert_same id index x).
    + intros id' Hne. by apply (getDocument_insert_other id id' index x).
Qed.

(** X17 ([deleteDocument], [getDocument]). When the write to storage
    succeeds: an unknown identifier returns [false] and changes nothing; a
    known one returns [true], removes every document that carries the
    identifier, so that [getDocument] no longer finds it, and leaves the
    lookup of every other identifier unchanged. *)
Theorem delete_removes_every_match (id : string) (documents : list Document) :
  (forall docs, setItem docs = Returned tt) ->
  (getDocument id documents = None ->
   deleteDocument setItem id documents = (false, documents)) /\
  (forall doc, getDocument id documents = Some doc ->
   exists docs',
     deleteDocument setItem id documents = (true, docs') /\
     docs' = filter (fun doc => doc_id doc <> id) documents /\
     getDocument id docs' = None /\
     (forall id', id' <> id -> getDocument id' docs' = getDocument id' documents)).
Proof.
  intros Hset. unfold deleteDocument, saveDocuments. split.
  - intros Hnone%getDocument_None. case_decide as Hlen; [done|].
    by apply (proj2 (filter_keeps_length _ _)) in Hnone.
  - intros doc Hdoc. case_decide as Hlen.
    + apply filter_keeps_length, getDocument_None in Hlen. congruence.
    + rewrite Hset. eexists. split; [done|]. split; [done|]. split.
      * apply getDocument_filter_same.
      * intros id' Hne. by apply getDocument_filter_other.
Qed.

(** X18 ([saveDocuments] and its callers). When the write to storage
    throws, the error is swallowed: the list is not replaced, yet
    [createDocument] still returns the new document, [updateDocument] the
    updated one, and [deleteDocument] still returns [true]. *)
Theorem failed_write_is_not_reported (e : Exn) (documents : list Document) :
  (forall docs, setItem docs = Raised e) ->
  (forall id now title tableData description,
     exists doc,
       createDocument setItem id now title tableData description documents
       = (doc, documents) /\ doc_id doc = id) /\
  (forall id updates now doc, getDocument id documents = Some doc ->
     updateDocument setItem id updates now documents
     = (Some (applyUpdates doc updates now), documents)) /\
  (forall id doc, getDocument id documents = Some doc ->
     deleteDocument setItem id documents = (true, documents)).
Proof.
  intros Hset. split_and!.
  - intros. eexists. unfold createDocument, saveDocuments. by rewrite Hset.
  - intros id updates now doc Hdoc. unfold updateDocument, saveDocuments.
    unfold getDocument in Hdoc. apply fmap_Some in Hdoc as ([index x] & Hf & ->).
    by rewrite Hf, Hset.
  - intros id doc Hdoc. unfold deleteDocument, saveDocuments. case_decide as Hlen.
    + apply filter_keeps_length, getDocument_None in Hlen. congruence.
    + by rewrite Hset.
Qed.

End DocumentStoreProperties.

(** * The gateway *)

(** ** Image URLs *)

Section UrlMatching.
Context {A : Type} (f : jstext -> A).

Lemma dots_star_greedy_all taken s :
  one_line s ->
  dots_star_greedy (fun data rest => at_end (f data) rest) taken s
  = Some (f (reverse taken ++ s)).
Proof.
  intros Hs. revert taken. induction Hs as [|c s Hc Hs IH]; intros taken.
  - simpl. by rewrite app_nil_r.
  - cbn [dots_star_greedy]. rewrite Hc, IH, reverse_cons. by rewrite <- (assoc_L (++)).
Qed.

Lemma dots_greedy_all s :
  s <> [] -> one_line s ->
  dots_greedy (fun data rest => at_end (f data) rest) s = Some (f s).
Proof.
  intros Hne Hs. destruct s as [|c s]; [done|].
  apply Forall_cons in Hs as [Hc Hs]. unfold dots_greedy. rewrite Hc.
  by rewrite dots_star_greedy_all.
Qed.

Lemma dots_star_greedy_stuck taken s :
  Exists (fun c => is_line_terminator c = true) s ->
  dots_star_greedy (fun data rest => at_end (f data) rest) taken s = None.
Proof.
  intros Hs. revert taken. induction s as [|c s IH]; intros taken.
  - by apply Exists_nil in Hs.
  - cbn [dots_star_greedy]. destruct (is_line_terminator c) eqn:Hc; [done|].
    apply Exists_cons in Hs as [Hs|Hs]; [congruence|]. by rewrite IH.
Qed.

Lemma dots_greedy_stuck s :
  Exists (fun c => is_line_terminator c = true) s ->
  dots_greedy (fun data rest => at_end (f data) rest) s = None.
Proof.
  intros Hs. destruct s as [|c s]; [done|]. unfold dots_greedy.
  destruct (is_line_terminator c) eqn:Hc; [done|].
  apply Exists_cons in Hs as [Hs|Hs]; [congruence|]. by apply dots_star_greedy_stuck.
Qed.
End UrlMatching.


Lemma dots_lazy_mime taken mime data :
  mime <> [] -> one_line mime -> Forall (fun c => c <> 59%N) mime ->
  data <> [] -> one_line data ->
  dots_lazy after_mime taken (mime ++ units ";base64," ++ data)
  = Some (reverse taken ++ mime, data).
Proof.
  intros Hne Hline Hsemi Hdata Hdline. revert taken.
  induction mime as [|c mime IH]; intros taken; [done|].
  apply Forall_cons in Hline as [Hc Hline]. apply Forall_cons in Hsemi as [_ Hsemi].
  cbn [app dots_lazy]. rewrite Hc. destruct mime as [|c' mime].
  - assert (after_mime (reverse (c :: taken)) ([] ++ units ";base64," ++ data)
            = Some (reverse (c :: taken), data)) as ->.
    { unfold after_mime, chars.
      change (strip_prefix (units ";base64,") ([] ++ units ";base64," ++ data))
        with (Some data).
      by apply (dots_greedy_all (fun d => (reverse (c :: taken), d))). }
    by rewrite reverse_cons.
  - assert (after_mime (reverse (c :: taken)) ((c' :: mime) ++ units ";base64," ++ data) = None)
      as ->.
    { unfold after_mime, chars. apply Forall_cons in Hsemi as [Hc' _].
      change (units ";base64,") with (59%N :: units "base64,") at 1.
      cbn [app strip_prefix]. by destruct (decide (59%N = c')). }
    rewrite IH by done. by rewrite reverse_cons, <- (assoc_L (++)).
Qed.

Lemma dots_lazy_stuck taken s :
  Exists (fun c => is_line_terminator c = true) s ->
  dots_lazy after_mime taken s = None.
Proof.
  intros Hs. revert taken. induction s as [|c s IH]; intros taken.
  - by apply Exists_nil in Hs.
  - cbn [dots_lazy]. destruct (is_line_terminator c) eqn:Hc; [done|].
    apply Exists_cons in Hs as [Hs|Hs]; [congruence|].
    assert (after_mime (reverse (c :: taken)) s = None) as ->; [|by apply IH].
    unfold after_mime, chars.
    destruct (strip_prefix (units ";base64,") s) as [r|] eqn:Hr; [|done].
    apply strip_prefix_Some in Hr. subst s. apply dots_greedy_stuck.
    apply Exists_app in Hs as [Hs|Hs]; [|done].
    exfalso. revert Hs. rewrite Exists_exists. intros (x & Hx & Hterm).
    revert Hx Hterm. simpl. rewrite !elem_of_cons, elem_of_nil.
    intros Hx. by repeat destruct Hx as [->|Hx].
Qed.

(** X19 ([extractBase64Image]). A data URL is taken apart into its two
    components: for a payload that is not empty and holds no line
    terminator, and a media type that is not empty and holds neither a line
    terminator nor a semicolon, the URL made of [data:], the media type,
    [;base64,] and the payload gives back the media type and the payload;
    the short form [base64,] followed by the payload gives [image/jpeg] and
    the payload. *)
Theorem data_url_round_trip (mime data : jstext) :
  data <> [] -> one_line data ->
  (mime <> [] -> one_line mime -> Forall (fun c => c <> 59%N) mime ->
   extractBase64Image (units "data:" ++ mime ++ units ";base64," ++ data)
   = (mime, data)) /\
  extractBase64Image (units "base64," ++ data) = (units "image/jpeg", data).
Proof.
  intros Hdata Hline. split.
  - intros Hmime Hmline Hsemi. unfold extractBase64Image, dataUrlMatch, chars.
    change (strip_prefix (units "data:") (units "data:" ++ mime ++ units ";base64," ++ data))
      with (Some (mime ++ units ";base64," ++ data)).
    cbn beta iota. by rewrite (dots_lazy_mime [] mime data).
  - unfold extractBase64Image, dataUrlMatch, base64Match, chars.
    change (strip_prefix (units "data:") (units "base64," ++ data)) with (@None jstext).
    change (strip_prefix (units "base64,") (units "base64," ++ data)) with (Some data).
    cbn beta iota. by erewrite (dots_greedy_all (fun d => d)).
Qed.

(** The image URL of [recognizeFromImage], whatever the image is. *)
Lemma extractBase64Image_imageUrl b :
  (b <> [] -> one_line b ->
   extractBase64Image (imageUrl b) = (units "image/jpeg", b)) /\
  (b = [] \/ Exists (fun c => is_line_terminator c = true) b ->
   extractBase64Image (imageUrl b) = (units "image/jpeg", imageUrl b)).
Proof.
  split.
  - intros Hne Hline. unfold extractBase64Image, dataUrlMatch, chars, imageUrl.
    change (strip_prefix (units "data:") (units "data:image/jpeg;base64," ++ b))
      with (Some (units "image/jpeg" ++ units ";base64," ++ b)).
    cbn beta iota. rewrite (dots_lazy_mime [] (units "image/jpeg") b); try done.
    all: by repeat constructor.
  - intros [->|Hterm]; [done|].
    unfold extractBase64Image, dataUrlMatch, base64Match, chars, imageUrl.
    change (strip_prefix (units "data:") (units "data:image/jpeg;base64," ++ b))
      with (Some (units "image/jpeg;base64," ++ b)).
    change (strip_prefix (units "base64,") (units "data:image/jpeg;base64," ++ b))
      with (@None jstext).
    cbn beta iota. rewrite dots_lazy_stuck; [done|].
    apply Exists_app. by right.
Qed.

(** ** Messages for Gemini *)

Lemma normalizeGeminiParts_files content :
  existsb is_file_part (ensureArray content) = true ->
  normalizeGeminiParts content = Raised unsupported.
Proof.
  unfold normalizeGeminiParts. generalize (ensureArray content) as l.
  induction l as [|item l IH]; [done|]. cbn [existsb fmap list_fmap collect].
  destruct item as [s|[t|url d|url mt]]; cbn; try done.
  - intros H. by rewrite (IH H).
  - intros H. by rewrite (IH H).
  - intros H. destruct (extractBase64Image url). cbn. by rewrite (IH H).
Qed.

Lemma normalizeGeminiParts_returns content :
  existsb is_file_part (ensureArray content) = false ->
  exists parts, normalizeGeminiParts content = Returned parts /\
                length parts = length (ensureArray content).
Proof.
  unfold normalizeGeminiParts. generalize (ensureArray content) as l.
  induction l as [|item l IH]; [by exists []|]. cbn [existsb fmap list_fmap collect].
  destruct item as [s|[t|url d|url mt]]; cbn; try done.
  - intros H. destruct (IH H) as (parts & -> & Hlen). eexists. split; [done|]. cbn. by rewrite Hlen.
  - intros H. destruct (IH H) as (parts & -> & Hlen). eexists. split; [done|]. cbn. by rewrite Hlen.
  - intros H. destruct (extractBase64Image url). cbn.
    destruct (IH H) as (parts & -> & Hlen). eexists. split; [done|]. cbn. by rewrite Hlen.
Qed.

Section SplitProperties.
Variable stringify : ContentPart -> string.

Lemma splitLoop_files messages systemParts contents :
  existsb carries_file messages = true ->
  splitLoop stringify (systemParts, contents) messages = Raised unsupported.
Proof.
  revert systemParts contents. induction messages as [|m ms IH]; [done|].
  intros systemParts contents. cbn [existsb splitLoop]. unfold splitStep, carries_file at 1.
  unfold normalizeGeminiMessage.
  destruct (msg_role m) eqn:Hrole; cbn.
  all: try (destruct (existsb is_file_part (ensureArray (msg_content m))) eqn:Hm;
            [ by rewrite normalizeGeminiParts_files
            | destruct (normalizeGeminiParts_returns _ Hm) as (parts & -> & _); cbn;
              intros H; by apply IH ]).
  all: intros H; by apply IH.
Qed.

Lemma splitLoop_returns messages systemParts contents :
  existsb carries_file messages = false ->
  exists parts sent,
    splitLoop stringify (systemParts, contents) messages
    = Returned (systemParts ++ parts, contents ++ sent) /\
    length parts = length (system_items messages) /\
    gemini_role <$> sent
    = sent_as <$> filter (fun m => msg_role m <> RoleSystem) messages /\
    (fun c => length (gemini_parts c)) <$> sent
    = sent_parts <$> filter (fun m => msg_role m <> RoleSystem) messages.
Proof.
  revert systemParts contents. induction messages as [|m ms IH].
  { intros systemParts contents _. exists [], []. by rewrite !app_nil_r. }
  intros systemParts contents. cbn [existsb splitLoop].
  unfold splitStep, carries_file at 1, normalizeGeminiMessage, system_items.
  rewrite !filter_cons.
  destruct (msg_role m) eqn:Hrole; cbn; repeat case_decide; try done.
  - destruct (existsb is_file_part (ensureArray (msg_content m))) eqn:Hm; [done|].
    destruct (normalizeGeminiParts_returns _ Hm) as (parts & -> & Hlen); cbn.
    intros Hms. destruct (IH (systemParts ++ parts) contents Hms) as (ps & sent & -> & Hps & Hr & Hn).
    exists (parts ++ ps), sent. rewrite (assoc_L (++)). split_and!; [done| |done|done].
    rewrite !length_app. by rewrite Hlen, Hps.
  - destruct (existsb is_file_part (ensureArray (msg_content m))) eqn:Hm; [done|].
    destruct (normalizeGeminiParts_returns _ Hm) as (parts & -> & Hlen); cbn.
    intros Hms. destruct (IH systemParts (contents ++ [mkGeminiContent GeminiUser parts]) Hms)
      as (ps & sent & -> & Hps & Hr & Hn).
    exists ps, (mkGeminiContent GeminiUser parts :: sent).
    rewrite <- (assoc_L (++)). split_and!; [done|done| |];
      (rewrite !fmap_cons; f_equal; [unfold sent_as, sent_parts; by rewrite Hrole|done]).
  - destruct (existsb is_file_part (ensureArray (msg_content m))) eqn:Hm; [done|].
    destruct (normalizeGeminiParts_returns _ Hm) as (parts & -> & Hlen); cbn.
    intros Hms. destruct (IH systemParts (contents ++ [mkGeminiContent GeminiModel parts]) Hms)
      as (ps & sent & -> & Hps & Hr & Hn).
    exists ps, (mkGeminiContent GeminiModel parts :: sent).
    rewrite <- (assoc_L (++)). split_and!; [done|done| |];
      (rewrite !fmap_cons; f_equal; [unfold sent_as, sent_parts; by rewrite Hrole|done]).
  - intros Hms. destruct (IH systemParts (contents ++ [mkGeminiContent GeminiUser
                          [GText (serializeContent stringify (msg_content m))]]) Hms)
      as (ps & sent & -> & Hps & Hr & Hn).
    eexists ps, (_ :: sent).
    rewrite <- (assoc_L (++)). split_and!; [done|done| |];
      (rewrite !fmap_cons; f_equal; [unfold sent_as, sent_parts; by rewrite Hrole|done]).
  - intros Hms. destruct (IH systemParts (contents ++ [mkGeminiContent GeminiUser
                          [GText (serializeContent stringify (msg_content m))]]) Hms)
      as (ps & sent & -> & Hps & Hr & Hn).
    eexists ps, (_ :: sent).
    rewrite <- (assoc_L (++)). split_and!; [done|done| |];
      (rewrite !fmap_cons; f_equal; [unfold sent_as, sent_parts; by rewrite Hrole|done]).
Qed.

(** X20 ([splitGeminiMessages]). The conversion of the messages throws
    exactly when a system, user or assistant message carries a file part,
    and then with the error [Unsupported Gemini content part]; a file part in
    a tool or function message is serialised and never rejected. *)
Theorem split_fails_only_on_files (messages : list Message) :
  (existsb carries_file messages = true ->
   splitGeminiMessages stringify messages = Raised unsupported) /\
  (existsb carries_file messages = false ->
   exists split, splitGeminiMessages stringify messages = Returned split).
Proof.
  unfold splitGeminiMessages. split; intros H.
  - by rewrite splitLoop_files.
  - destruct (splitLoop_returns messages [] [] H) as (ps & sent & -> & _). cbn. eauto.
Qed.

(** X21 ([splitGeminiMessages]). When the conversion returns, the
    contents are the messages that are not system messages, one for one and
    in order: an assistant message has the role [model] and every other one
    the role [user], a tool or function message has one part and every other
    one a part for each of its items. The system instruction has one part for
    each item of the system messages, and is absent rather than empty. *)
Theorem split_keeps_order (messages : list Message) instruction sent :
  splitGeminiMessages stringify messages = Returned (instruction, sent) ->
  gemini_role <$> sent = sent_as <$> filter (fun m => msg_role m <> RoleSystem) messages /\
  (fun c => length (gemini_parts c)) <$> sent
  = sent_parts <$> filter (fun m => msg_role m <> RoleSystem) messages /\
  length (default [] instruction) = length (system_items messages) /\
  instruction <> Some [].
Proof.
  unfold splitGeminiMessages. intros H.
  destruct (existsb carries_file messages) eqn:Hfiles.
  { by rewrite splitLoop_files in H. }
  destruct (splitLoop_returns messages [] [] Hfiles) as (ps & snt & Heq & Hps & Hr & Hn).
  rewrite Heq in H. cbn in H. simplify_eq. split_and!; [done|done| |].
  - case_decide; cbn; [done|]. rewrite <- Hps. destruct ps; [done|cbn in *; lia].
  - case_decide; [|done]. intros [= ->]. cbn in *. lia.
Qed.
End SplitProperties.

(** ** The call to Gemini *)

Section GatewayProperties.
Context {JSValue : Type}.
Variable env : Env.
Variable stringify : ContentPart -> string.
Variable fetch : @Request JSValue -> Outcome Response.
Variable now : Z.

(** X22 ([invokeLLM], [assertApiKey]). Without an API key, or with an empty
    one, [invokeLLM] throws [GEMINI_API_KEY is not configured] whatever the
    parameters and whatever [fetch] would answer: the key is checked before
    the messages, the tools and the response format are. *)
Theorem missing_key_stops_the_call (params : @InvokeParams JSValue) :
  default [] (geminiApiKey env) = [] ->
  invokeLLM env stringify fetch now params
  = Raised (Error "GEMINI_API_KEY is not configured").
Proof.
  intros Hkey. unfold invokeLLM, buildRequest, assertApiKey.
  destruct (geminiApiKey env) as [key|]; [|done]. cbn in Hkey. subst key. done.
Qed.

Lemma requireContent_gateway (data : GeminiResponse) id created model :
  requireContent
    (asInvokeResult (mkGatewayResult id created model (gatewayChoices data) (gatewayUsage data)))
  = match candidates data ≫= head with
    | Some candidate =>
        if decide (candidateText candidate = []) then
          Raised (Error "Failed to get response from LLM")
        else Returned (candidateText candidate)
    | None => Raised (Error "Failed to get response from LLM")
    end.
Proof.
  unfold requireContent, responseContent, asInvokeResult, gatewayChoices.
  destruct (candidates data) as [[|c cs]|]; cbn; try done.
  by case_decide.
Qed.

(** X23 ([invokeLLM] and the guard of the router). When the request is
    built and Gemini answers with an [ok] response, the text that the router
    works on is the concatenation of the texts of the parts of the first
    candidate, a part without text counting for nothing; when there is no
    candidate or that text is empty, the router throws
    [Failed to get response from LLM]. *)
Theorem answer_is_first_candidate_text (params : @InvokeParams JSValue)
    request response data :
  buildRequest env stringify params = Returned request ->
  fetch request = Returned response ->
  ok response = true ->
  response_json response = Returned data ->
  (do result <- routerGateway env stringify fetch now params; requireContent result)
  = match candidates data ≫= head with
    | Some candidate =>
        if decide (candidateText candidate = []) then
          Raised (Error "Failed to get response from LLM")
        else Returned (candidateText candidate)
    | None => Raised (Error "Failed to get response from LLM")
    end.
Proof.
  intros Hrequest Hfetch Hok Hjson.
  unfold routerGateway, invokeLLM, readResponse.
  rewrite Hrequest. cbn. rewrite Hfetch. cbn. rewrite Hok, Hjson. cbn.
  apply requireContent_gateway.
Qed.

Lemma no_text_no_content (params : @InvokeParams JSValue) :
  (forall request response data,
     fetch request = Returned response -> ok response = true ->
     response_json response = Returned data -> no_text data) ->
  (do result <- routerGateway env stringify fetch now params; requireContent result)
  = match invokeLLM env stringify fetch now params with
    | Returned _ => Raised (Error "Failed to get response from LLM")
    | Raised e => Raised e
    end.
Proof.
  intros Hfetch. unfold routerGateway, invokeLLM, readResponse.
  destruct (buildRequest env stringify params) as [request|e]; [|done]. cbn.
  destruct (fetch request) as [response|e] eqn:Hresponse; [|done]. cbn.
  destruct (ok response) eqn:Hok.
  - destruct (response_json response) as [data|e] eqn:Hjson; [|done]. cbn.
    rewrite requireContent_gateway.
    specialize (Hfetch _ _ _ Hresponse Hok Hjson). unfold no_text in Hfetch.
    destruct (candidates data ≫= head) as [c|]; [|done].
    rewrite (Hfetch c eq_refl). done.
  - by destruct (response_text response).
Qed.

(** X24 (the three operations over [invokeLLM]). When no [ok] answer of
    Gemini carries a text in its first candidate, none of
    [recognizeFromImage], [searchAndFill] and [modifyTable] returns a result,
    not even the degraded one: each throws, whatever the input and the
    prompts. *)
Theorem operations_need_an_answer {Parsed : Type}
    (JSON_parse : jstext -> Outcome Parsed)
    (as_Recognize : Parsed -> RecognizeResult)
    (as_Search : Parsed -> SearchResult)
    (as_Modify : Parsed -> ModifyResult)
    (recognizePrompt : string -> option string -> @InvokeParams JSValue)
    (searchPrompt modifyPrompt : TableData -> string -> @InvokeParams JSValue) :
  (forall request response data,
     fetch request = Returned response -> ok response = true ->
     response_json response = Returned data -> no_text data) ->
  (forall image description,
     exists e, recognizeFromImage JSON_parse as_Recognize
                 (routerGateway env stringify fetch now) recognizePrompt image description
               = Raised e) /\
  (forall table instruction,
     exists e, searchAndFill JSON_parse as_Search
                 (routerGateway env stringify fetch now) searchPrompt table instruction
               = Raised e) /\
  (forall table instruction,
     exists e, modifyTable JSON_parse as_Modify
                 (routerGateway env stringify fetch now) modifyPrompt table instruction
               = Raised e).
Proof.
  intros Hfetch.
  assert (forall {B} params (k : jstext -> Outcome B),
            exists e, (do result <- routerGateway env stringify fetch now params;
                       do content <- requireContent result; k content) = Raised e) as Hnone.
  { intros B params k. pose proof (no_text_no_content params Hfetch) as H.
    destruct (routerGateway env stringify fetch now params) as [result|e]; cbn in *.
    - rewrite H. destruct (invokeLLM env stringify fetch now params); cbn; eauto.
    - eauto. }
  split_and!; intros; apply Hnone.
Qed.

(** X25 ([recognizeFromImage] through [invokeLLM]). With an API key, the
    request for an image holds the system prompt as system instruction, one
    user content with the user prompt and the image as inline data of type
    [image/jpeg], a limit of 32768 tokens and no tool or format option. The
    inline data is the image as given when it is not empty and holds no line
    terminator; otherwise the pattern of the data URL does not match and the
    inline data is the whole URL, prefix included. *)
Theorem recognition_request (systemPrompt userPrompt : string) (imageBase64 key : jstext) :
  geminiApiKey env = Some key -> key <> [] ->
  let request data :=
    mkRequest (resolveApiUrl env) key
      (mkPayload (JSValue := JSValue)
         [mkGeminiContent GeminiUser
            [GText userPrompt; GInlineData (units "image/jpeg") data]]
         (mkGenerationConfig 32768 None None)
         (Some [GText systemPrompt]) None None) in
  (imageBase64 <> [] -> one_line imageBase64 ->
   buildRequest env stringify (recognizeParams systemPrompt userPrompt imageBase64)
   = Returned (request imageBase64)) /\
  (imageBase64 = [] \/ Exists (fun c => is_line_terminator c = true) imageBase64 ->
   buildRequest env stringify (recognizeParams systemPrompt userPrompt imageBase64)
   = Returned (request (imageUrl imageBase64))).
Proof.
  intros Hkey Hne request.
  destruct (extractBase64Image_imageUrl imageBase64) as [Hgood Hbad].
  unfold buildRequest, assertApiKey. rewrite Hkey. rewrite decide_False by done.
  unfold recognizeParams, recognizeMessages, splitGeminiMessages, splitLoop, splitStep,
    normalizeGeminiMessage, normalizeGeminiParts.
  split; intros; cbn -[extractBase64Image imageUrl];
    [rewrite Hgood by done|rewrite Hbad by done]; done.
Qed.

(** X26 ([normalizeResponseFormat] in [invokeLLM]). Whenever a request is
    built for an explicit [json_schema] format, or for an output schema
    without explicit format, its generation configuration has the media type
    [application/json] and carries a schema. *)
Theorem schema_format_reaches_the_request (params : @InvokeParams JSValue) request :
  buildRequest env stringify params = Returned request ->
  (exists js, or_else (responseFormat params) (response_format params)
              = Some (FormatJsonSchema js)) \/
  (or_else (responseFormat params) (response_format params) = None /\
   or_else (outputSchema params) (output_schema params) <> None) ->
  responseMimeType (generationConfig (request_body request)) = Some "application/json" /\
  is_Some (responseSchema (generationConfig (request_body request))).
Proof.
  unfold buildRequest, normalizeResponseFormat. intros Hrequest Hformat.
  destruct (assertApiKey env); [|done]. cbn in Hrequest.
  destruct (splitGeminiMessages stringify (messages params)) as [[instruction sent]|];
    [|done]. cbn in Hrequest.
  destruct (normalizeToolChoice _ _); [|done]. cbn in Hrequest.
  destruct Hformat as [[js Hjs]|[Hnone Hschema]].
  - rewrite Hjs in Hrequest. destruct (js ≫= schema) as [body|] eqn:Hbody; [|done].
    cbn in Hrequest. simplify_eq. cbn. rewrite Hbody. eauto.
  - rewrite Hnone in Hrequest.
    destruct (or_else (outputSchema params) (output_schema params)) as [s|]; [|done].
    case_decide; [done|]. destruct (schema s) as [body|]; [|done].
    cbn in Hrequest. simplify_eq. cbn. eauto.
Qed.

(** X27 ([normalizeToolChoice] in [invokeLLM]). Whenever a request is built
    for the tool choice [required], exactly one tool was given: the request
    declares this tool and restricts the calls to its name, in mode [ANY]. *)
Theorem required_choice_names_the_only_tool (params : @InvokeParams JSValue) request :
  buildRequest env stringify params = Returned request ->
  or_else (toolChoice params) (tool_choice params) = Some ChoiceRequired ->
  exists tool,
    tools params = Some [tool] /\
    functionDeclarations (request_body request) = Some [tool] /\
    toolConfig (request_body request)
    = Some (mkToolConfig ModeAny (Some [tool_name tool])).
Proof.
  unfold buildRequest. intros Hrequest Hchoice.
  destruct (assertApiKey env); [|done]. cbn in Hrequest.
  destruct (splitGeminiMessages stringify (messages params)) as [[instruction sent]|];
    [|done]. cbn in Hrequest.
  rewrite Hchoice in Hrequest. unfold normalizeToolChoice in Hrequest.
  destruct (tools params) as [[|tool [|tool' rest]]|]; try done. cbn in Hrequest.
  destruct (normalizeResponseFormat _ _ _ _); [|done]. cbn in Hrequest.
  simplify_eq. exists tool. done.
Qed.
End GatewayProperties.

(** * Examples

    The statements above at concrete inputs, run end to end on the
    fixtures, and the inputs at which the specification's wording fails. *)

(** The two texts of the extraction example, code unit by code unit, and
    what is extracted from them. *)
Example rawExample_units :
  rawExample = [123; 34; 97; 34; 58; 49; 125]%N.
Proof. reflexivity. Qed.

Example fencedExample_units :
  fencedExample
  = [96; 96; 96; 106; 115; 111; 110; 10; 123; 34; 97; 34; 58; 49; 125; 10; 96; 96; 96]%N.
Proof. reflexivity. Qed.

Example jsonStr_examples :
  jsonStr fencedExample = rawExample /\
  jsonStr (units "  [1, 2]  ") = units "[1, 2]" /\
  jsonStr (units "Result: ```  [1] ``` and ```[2]```") = units "[1]" /\
  jsonStr (units "```json") = units "```json" /\
  jsonStr (units "a ````` b") = units "a ````` b" /\
  jsonStr (units "```js [1]```") = units "js [1]".
Proof. by split_and!. Qed.

(** Rows are realigned by their first column only when the row counts
    differ. With a third candidate row the keys [k1] and [k2] find their
    content whatever the candidate order; with the same two candidate rows
    alone the counts agree and the rows are merged by position. *)
Example realignment_needs_a_count_mismatch :
  reconcileSearch fieldTable
    (mkTable ["Field"; "Content"] [["k2"; "Y2"]; ["k1"; "X2"]; ["k3"; "Z2"]])
  = Returned (mkTable ["Field"; "Content"] [["k1"; "X2"]; ["k2"; "Y2"]]) /\
  reconcileSearch fieldTable
    (mkTable ["Field"; "Content"] [["k2"; "Y2"]; ["k1"; "X2"]])
  = Returned (mkTable ["Field"; "Content"] [["k1"; "Y2"]; ["k2"; "X2"]]).
Proof. by split. Qed.

Lemma replying_answered {A B} (text : jstext) (a : A) (b : B) :
  text <> [] -> answered (replying text) (anyPrompt a b) text.
Proof.
  intros Htext. eexists. split; [reflexivity|].
  unfold responseContent. simpl. by case_decide.
Qed.

(** C2, counterexample: the gateway call fails (no API key) and both
    operations raise that error instead of returning the original table. *)
Lemma gateway_failure_escapes_search_and_modify :
  failing missingKey (anyPrompt fieldTable "fill") = Raised missingKey /\
  searchAndFill readJson jsonSearch (failing missingKey) anyPrompt fieldTable "fill"
  = Raised missingKey /\
  modifyTable readJson jsonModify (failing missingKey) anyPrompt fieldTable "fill"
  = Raised missingKey /\
  ~ (exists summary,
       searchAndFill readJson jsonSearch (failing missingKey) anyPrompt fieldTable "fill"
       = Returned (mkSearch fieldTable summary)) /\
  ~ (exists text,
       modifyTable readJson jsonModify (failing missingKey) anyPrompt fieldTable "fill"
       = Returned (mkModify fieldTable text)).
Proof. split_and!; try reflexivity; intros [x Hx]; discriminate Hx. Qed.

(** C2, witness: the completion is prose, [JSON.parse] throws, and both
    operations return the original table with the failure text. *)
Lemma parse_failure_returns_original_witness :
  searchAndFill readJson jsonSearch (replying proseReply) anyPrompt fieldTable "fill"
  = Returned (mkSearch fieldTable (Some failureText)) /\
  modifyTable readJson jsonModify (replying proseReply) anyPrompt fieldTable "fill"
  = Returned (mkModify fieldTable (Some failureText)).
Proof.
  destruct (parse_failure_returns_original readJson jsonSearch jsonModify
              (replying proseReply) anyPrompt anyPrompt fieldTable "fill")
    as (Hs & Hm & _).
  split.
  - apply (Hs proseReply SyntaxError); [by apply replying_answered|reflexivity].
  - apply (Hm proseReply SyntaxError); [by apply replying_answered|reflexivity].
Defined.

(** C3, counterexample: the gateway call fails and [recognizeFromImage]
    raises that error instead of returning the fallback table. *)
Lemma gateway_failure_escapes_recognition :
  failing missingKey (anyPrompt "image" (@None string)) = Raised missingKey /\
  recognizeFromImage readJson jsonRecognize (failing missingKey) anyPrompt "image" None
  = Raised missingKey /\
  ~ (exists name,
       recognizeFromImage readJson jsonRecognize (failing missingKey) anyPrompt "image" None
       = Returned (mkRecognize name fallbackTable)).
Proof. split_and!; try reflexivity; intros [x Hx]; discriminate Hx. Qed.

(** C3, witness: the completion is prose and the fallback table comes back. *)
Lemma recognition_fallback_witness :
  recognizeFromImage readJson jsonRecognize (replying proseReply) anyPrompt "image" None
  = Returned (mkRecognize (Some "识别的表格")
                (mkTable ["列1"; "列2"; "列3"] [["无法识别"; ""; ""]])).
Proof.
  destruct (recognition_fallback readJson jsonRecognize (replying proseReply) anyPrompt
              "image" None) as (Hr & _).
  apply (Hr proseReply SyntaxError); [by apply replying_answered|reflexivity].
Defined.

(** C1, counterexample: the completion describes a table of two headers
    whose only row has one cell; [recognizeFromImage] returns it as it is. *)
Lemma recognition_returns_jagged_table :
  recognizeFromImage readJson jsonRecognize (replying jaggedReply) anyPrompt "image" None
  = Returned (mkRecognize (Some "T") (mkTable ["A"; "B"] [["1"]])) /\
  ~ rectangular (mkTable ["A"; "B"] [["1"]]).
Proof.
  split; [reflexivity|]. unfold rectangular. simpl.
  intros H. apply Forall_cons_1 in H as [H _]. discriminate H.
Qed.

(** C1, witness: a completion of three rows for a table of two, and a
    completion with a short and a long row; both results are rectangular. *)
Lemma column_count_on_repair_paths_witness :
  (exists r, searchAndFill readJson jsonSearch (replying reorderedReply) anyPrompt
               fieldTable "fill" = Returned r /\ rectangular (filled r)) /\
  (exists r, modifyTable readJson jsonModify (replying widenedReply) anyPrompt
               smallTable "add a column" = Returned r /\ rectangular (modified r)).
Proof.
  split.
  - destruct (column_count_on_repair_paths readJson jsonRecognize jsonSearch jsonModify
                (replying reorderedReply) anyPrompt anyPrompt anyPrompt
                fieldTable "fill" "image" None) as (Hs & _).
    eapply (Hs reorderedReply); [by apply replying_answered|reflexivity].
  - destruct (column_count_on_repair_paths readJson jsonRecognize jsonSearch jsonModify
                (replying widenedReply) anyPrompt anyPrompt anyPrompt
                smallTable "add a column" "image" None) as (_ & Hm & _).
    eapply (Hm widenedReply); [by apply replying_answered|reflexivity].
Defined.

(** C4, witness: the completion proposes the headers [X, Y]; the original
    headers come back. *)
Lemma search_headers_are_original_witness :
  exists r, searchAndFill readJson jsonSearch (replying reorderedReply) anyPrompt
              fieldTable "fill" = Returned r /\
            headers (filled r) = ["Field"; "Content"].
Proof.
  destruct (search_headers_are_original readJson jsonSearch (replying reorderedReply)
              anyPrompt fieldTable "fill") as (_ & H).
  apply (H reorderedReply). by apply replying_answered.
Defined.

(** C5, witness: the completion has three rows; two come back. *)
Lemma search_row_count_is_original_witness :
  exists r, searchAndFill readJson jsonSearch (replying reorderedReply) anyPrompt
              fieldTable "fill" = Returned r /\
            length (rows (filled r)) = 2.
Proof.
  destruct (search_row_count_is_original readJson jsonSearch (replying reorderedReply)
              anyPrompt fieldTable "fill") as (_ & H).
  apply (H reorderedReply). by apply replying_answered.
Defined.

(** C6, counterexample: a table of one column. Its last column is its
    first; the candidate's cell [new] is not empty, and the output keeps the
    original [k]. *)
Lemma single_column_keeps_original_cell :
  (do v <- readJson (jsonStr renamedReply); Returned (filled (jsonSearch v)))
  = Returned (mkTable ["Name"] [["new"]]) /\
  searchAndFill readJson jsonSearch (replying renamedReply) anyPrompt nameTable "fill"
  = Returned (mkSearch (mkTable ["Name"] [["k"]]) None) /\
  length (headers nameTable) - 1 = 0 /\
  ~ (["k"] !! (length (headers nameTable) - 1)
     = Some (if decide (cell ["new"] (length (headers nameTable) - 1) = "")
             then cell ["k"] (length (headers nameTable) - 1)
             else cell ["new"] (length (headers nameTable) - 1))).
Proof. split_and!; try reflexivity. simpl. discriminate. Qed.

(** C6, witness: row 0 of a table of three columns. The key [k1] stays though
    the candidate says [zz], the empty middle cell takes the candidate's
    [maybe], the last cell takes the candidate's [X2]. *)
Lemma search_merges_by_position_witness :
  exists out r,
    searchAndFill readJson jsonSearch (replying alignedReply) anyPrompt formTable "fill"
    = Returned (mkSearch out (Some "done")) /\
    rows out !! 0 = Some r /\
    r !! 0 = Some "k1" /\ r !! 1 = Some "maybe" /\ r !! 2 = Some "X2".
Proof.
  edestruct (search_merges_by_position readJson jsonSearch (replying alignedReply)
               anyPrompt formTable "fill" alignedReply) as (out & Hs & Hrows);
    [by apply replying_answered|reflexivity|reflexivity|].
  destruct (Hrows 0 ["k1"; ""; "x"] ["zz"; "maybe"; "X2"] eq_refl eq_refl)
    as (r & Hr & _ & H0 & _ & Hmid & Hlast).
  exists out, r. split; [exact Hs|]. split; [exact Hr|]. split_and!.
  - apply H0. simpl. lia.
  - apply (Hmid 1); simpl; lia.
  - apply Hlast. simpl. lia.
Defined.

(** C7, counterexample: the original row has one cell for two headers and
    no candidate row has its first-column value; the output row is not the
    original row, it has gained an empty cell. *)
Lemma short_original_row_is_padded :
  (do v <- readJson (jsonStr unrelatedReply); Returned (filled (jsonSearch v)))
  = Returned (mkTable ["A"; "B"] [["x"; "1"]; ["y"; "2"]]) /\
  find_match [["x"; "1"]; ["y"; "2"]] ["k"] = None /\
  searchAndFill readJson jsonSearch (replying unrelatedReply) anyPrompt shortRowTable "fill"
  = Returned (mkSearch (mkTable ["A"; "B"] [["k"; ""]]) None) /\
  ~ (rows (mkTable ["A"; "B"] [["k"; ""]]) !! 0 = rows shortRowTable !! 0).
Proof. split_and!; try reflexivity. simpl. discriminate. Qed.

(** C7, witness: the original row [k2, y] is matched by the first candidate
    row [k2, Y2], though it stands at index 1 in the original. *)
Lemma search_realigns_by_first_column_witness :
  exists out r,
    searchAndFill readJson jsonSearch (replying reorderedReply) anyPrompt fieldTable "fill"
    = Returned (mkSearch out (Some "done")) /\
    rows out !! 1 = Some r /\
    length r = 2 /\ r !! 0 = Some "k2" /\ r !! 1 = Some "Y2".
Proof.
  edestruct (search_realigns_by_first_column readJson jsonSearch (replying reorderedReply)
               anyPrompt fieldTable "fill" reorderedReply) as (out & Hs & Hrows);
    [by apply replying_answered|reflexivity|simpl; lia|].
  destruct (Hrows 1 ["k2"; "y"] eq_refl) as (_ & Hal).
  destruct (Hal eq_refl) as (Hmatched & _).
  destruct (Hmatched ["k2"; "Y2"] eq_refl ltac:(simpl; lia)) as (r & Hr & Hlen & Hkeep & Hlast).
  exists out, r. split; [exact Hs|]. split; [exact Hr|]. split; [exact Hlen|]. split.
  - apply (Hkeep 0). simpl. lia.
  - apply Hlast. simpl. lia.
Defined.

(** C10, witness: [k1] stands twice among the candidate rows, with [X2] and
    then [X3]; the original row [k1, x] receives [X2]. *)
Lemma search_first_match_wins_witness :
  exists out r,
    searchAndFill readJson jsonSearch (replying reorderedReply) anyPrompt fieldTable "fill"
    = Returned (mkSearch out (Some "done")) /\
    rows out !! 0 = Some r /\ r !! 1 = Some "X2".
Proof.
  epose proof (search_first_match_wins readJson jsonSearch (replying reorderedReply)
                 anyPrompt fieldTable "fill" reorderedReply _
                 [["k2"; "Y2"]] ["k1"; "X2"] [["k1"; "X3"]]) as H.
  edestruct H as (out & Hs & Hrows);
    [by apply replying_answered|reflexivity|reflexivity|simpl; lia|].
  destruct (Hrows 0 ["k1"; "x"] eq_refl) as (_ & _ & Hlast).
  - repeat constructor. unfold same_key. simpl. congruence.
  - reflexivity.
  - destruct (Hlast eq_refl ltac:(simpl; lia) ltac:(simpl; lia)) as (r & Hr & Hcell).
    by exists out, r.
Defined.

(** C8, witness: an original of two headers and one row, a candidate of three
    headers and two rows; two rows of three cells come back, the short one
    padded from the original row. *)
Lemma modify_normalizes_candidate_rows_witness :
  exists out,
    modifyTable readJson jsonModify (replying widenedReply) anyPrompt smallTable "add a column"
    = Returned (mkModify out (Some "added")) /\
    headers out = ["A"; "B"; "C"] /\
    length (rows out) = 2 /\
    rows out !! 0 = Some ["1"; "2"; ""] /\
    rows out !! 1 = Some ["3"; "4"; "5"].
Proof.
  destruct (modify_normalizes_candidate_rows readJson jsonModify (replying widenedReply)
              anyPrompt smallTable "add a column") as (H & _).
  edestruct (H widenedReply) as (out & Hm & Hh & Hl & Hrows);
    [by apply replying_answered|reflexivity|].
  exists out. split; [exact Hm|]. split; [exact Hh|]. split; [exact Hl|].
  pose proof Hm as Hrun. vm_compute in Hrun. injection Hrun as <-. by split.
Defined.

Lemma wrappedReply_first_block :
  ~ occurs fence (units "Here you go: " ++ [backtick; backtick]) /\
  ~ occurs fence ((units "json" ++ newline ++ rawExample ++ newline) ++ [backtick; backtick]).
Proof. split; by apply find_fence_None. Qed.

(** C9, witness: with a [JSON.parse] that reads the payload as the object
    [{a: 1}], the fenced example, the bare example and the example wrapped in
    prose all parse to that object. *)
Lemma extraction_takes_first_fenced_block_witness :
  parseJsonResponse readJson id fencedExample = Returned (JObject [(units "a", JNumber 1)]) /\
  parseJsonResponse readJson id rawExample = Returned (JObject [(units "a", JNumber 1)]) /\
  parseJsonResponse readJson id wrappedReply = Returned (JObject [(units "a", JNumber 1)]).
Proof.
  destruct (extraction_takes_first_fenced_block readJson id) as (Hfirst & _ & _ & _ & _ & Hex).
  destruct (Hex (JObject [(units "a", JNumber 1)]) eq_refl) as [Hf Hr].
  split; [exact Hf|]. split; [exact Hr|].
  destruct wrappedReply_first_block as [Hpre Hbody].
  unfold wrappedReply. by rewrite (Hfirst _ _ _ Hpre Hbody).
Defined.

(** ** Witnesses of the further properties *)

(** X1, witness: the payload of the extraction example. *)
Lemma fenced_payload_parses_as_bare_witness :
  parseJsonResponse readJson id (fence ++ json_tag ++ newline ++ rawExample ++ newline ++ fence)
  = parseJsonResponse readJson id rawExample /\
  parseJsonResponse readJson id (fence ++ newline ++ rawExample ++ newline ++ fence)
  = parseJsonResponse readJson id rawExample.
Proof.
  apply (fenced_payload_parses_as_bare readJson id rawExample).
  by apply find_fence_None.
Defined.

(** X3, witness: the form table reconciled with the rows of the aligned
    answer, then with its own result. *)
Lemma reconcileSearch_stable_witness :
  reconcileSearch formTable
    (mkTable ["Field"; "Required"; "Content"] [["k1"; "maybe"; "X2"]; ["k2"; "yes"; "y"]])
  = Returned
      (mkTable ["Field"; "Required"; "Content"] [["k1"; "maybe"; "X2"]; ["k2"; "yes"; "y"]]).
Proof.
  apply (reconcileSearch_stable formTable
           (mkTable ["Field"; "Required"; "Content"] [["zz"; "maybe"; "X2"]; ["k2"; "no"; ""]]));
    reflexivity.
Defined.

(** X4, witness: the reordered answer; row 1 keeps its key [k2]. *)
Lemma search_keeps_first_column_witness :
  exists r row,
    searchAndFill readJson jsonSearch (replying reorderedReply) anyPrompt fieldTable "fill"
    = Returned r /\
    rows (filled r) !! 1 = Some row /\ row !! 0 = Some "k2".
Proof.
  pose (r := mkSearch (mkTable ["Field"; "Content"] [["k1"; "X2"]; ["k2"; "Y2"]]) (Some "done")).
  destruct (search_keeps_first_column readJson jsonSearch (replying reorderedReply) anyPrompt
              fieldTable "fill" r eq_refl ltac:(simpl; lia) 1 ["k2"; "y"] eq_refl
              ltac:(simpl; lia)) as (row & Hrow & Hkey).
  by exists r, row.
Defined.

(** X5, witness: the aligned answer says [no] where the form says [yes];
    [yes] stays. *)
Lemma search_keeps_filled_cells_witness :
  exists r row,
    searchAndFill readJson jsonSearch (replying alignedReply) anyPrompt formTable "fill"
    = Returned r /\
    rows (filled r) !! 1 = Some row /\ row !! 1 = Some "yes".
Proof.
  pose (r := mkSearch (mkTable ["Field"; "Required"; "Content"]
                         [["k1"; "maybe"; "X2"]; ["k2"; "yes"; "y"]]) (Some "done")).
  destruct (search_keeps_filled_cells readJson jsonSearch (replying alignedReply) anyPrompt
              formTable "fill" r eq_refl 1 ["k2"; "yes"; "y"] 1 "yes" eq_refl eq_refl
              ltac:(simpl; lia) eq_refl ltac:(discriminate)) as (row & Hrow & Hcell).
  by exists r, row.
Defined.

(** X6, witness: the only cell [k] of the name table becomes [v], the last
    cell of the candidate row whose key is [k]. *)
Lemma search_single_column_takes_matched_cell_witness :
  exists out x,
    searchAndFill readJson jsonSearch (replying keyedReply) anyPrompt nameTable "fill"
    = Returned (mkSearch out None) /\
    last ["k"; "v"] = Some x /\
    rows out !! 0 = Some [x].
Proof.
  epose proof (search_single_column_takes_matched_cell readJson jsonSearch
                 (replying keyedReply) anyPrompt nameTable "fill" keyedReply _ 0 "k"
                 ["k"; "v"]) as H.
  edestruct H as (out & x & Hs & Hx & Hrow);
    [by apply replying_answered|reflexivity|simpl; lia|reflexivity|reflexivity|reflexivity|].
  by exists out, x.
Defined.

(** X7, witness: a rectangular answer of three columns for a table of two. *)
Lemma modify_returns_rectangular_candidate_witness :
  modifyTable readJson jsonModify (replying tidyReply) anyPrompt smallTable "set"
  = Returned (mkModify (mkTable ["A"; "B"; "C"] [["1"; "9"; ""]]) (Some "set")).
Proof.
  assert (answered (replying tidyReply) (anyPrompt smallTable "set") tidyReply) as Ha
    by by apply replying_answered.
  epose proof (modify_returns_rectangular_candidate readJson jsonModify (replying tidyReply)
                 anyPrompt smallTable "set" tidyReply _ Ha eq_refl) as H.
  apply H. by repeat constructor.
Defined.

Lemma fieldTable_rectangular : rectangular fieldTable.
Proof. by repeat constructor. Qed.

(** X8, witness: the field table after each callback. *)
Lemma editor_keeps_tables_rectangular_witness :
  rectangular (addRow fieldTable) /\
  rectangular (addColumn fieldTable) /\
  rectangular (mkTable ["Field"; "Content"] [["k2"; "y"]]) /\
  rectangular (mkTable ["Content"] [["x"]; ["y"]]).
Proof.
  destruct (editor_keeps_tables_rectangular fieldTable fieldTable_rectangular)
    as (Hrow & Hcol & Hdrow & Hdcol & _).
  split; [exact Hrow|]. split; [exact Hcol|]. split.
  - by apply (Hdrow 0).
  - by apply (Hdcol 0).
Defined.

(** X9, witness: the field table, and a table without rows. *)
Lemma addRow_then_deleteRow_witness :
  deleteRow 2 (addRow fieldTable) = Some fieldTable /\
  deleteRow 0 (addRow (mkTable ["A"] [])) = None.
Proof.
  split.
  - by apply (addRow_then_deleteRow fieldTable).
  - by apply (addRow_then_deleteRow (mkTable ["A"] [])).
Defined.

(** X10, witness: the field table. *)
Lemma addColumn_then_deleteColumn_witness :
  deleteColumn 2 (addColumn fieldTable) = Some fieldTable.
Proof.
  by apply (addColumn_then_deleteColumn fieldTable fieldTable_rectangular).
Defined.

(** X11, witness: the one row of the small table cannot be deleted; an
    index past the end of the field table deletes nothing. *)
Lemma deleteRow_removes_one_row_witness :
  deleteRow 0 smallTable = None /\
  exists t', deleteRow 5 fieldTable = Some t' /\ length (rows t') = 2.
Proof.
  split.
  - apply (deleteRow_removes_one_row 0 smallTable). simpl. lia.
  - destruct (deleteRow_removes_one_row 5 fieldTable) as [_ H].
    destruct H as (t' & Hdel & _ & Hlen & _); [simpl; lia|].
    by exists t'.
Defined.

(** X12, witness: the first column of the field table. *)
Lemma deleteColumn_removes_one_column_witness :
  deleteColumn 0 nameTable = None /\
  exists t', deleteColumn 0 fieldTable = Some t' /\ headers t' = ["Content"].
Proof.
  split.
  - apply (deleteColumn_removes_one_column 0 nameTable). simpl. lia.
  - destruct (deleteColumn_removes_one_column 0 fieldTable) as [_ H].
    destruct H as (t' & Hdel & Hh & _); [simpl; lia|].
    by exists t'.
Defined.

(** X13, witness: the cell [y] of the field table is edited to [new]. *)
Lemma cell_edit_changes_one_cell_witness :
  exists t' r',
    handleCellBlur (mkEditor (Some (1%Z, 1)) "new") fieldTable
    = (mkEditor None "", Changed t') /\
    rows t' !! 1 = Some r' /\ r' !! 0 = Some "k2" /\ r' !! 1 = Some "new".
Proof.
  destruct (cell_edit_changes_one_cell (mkEditor (Some (1%Z, 1)) "new") fieldTable 1 1
              eq_refl) as (t' & Hblur & _ & _ & Hrows).
  destruct (Hrows 1 ["k2"; "y"] eq_refl) as (r' & Hr' & _ & Hcells).
  exists t', r'. split; [exact Hblur|]. split; [exact Hr'|]. split.
  - exact (Hcells 0 "k2" eq_refl).
  - exact (Hcells 1 "y" eq_refl).
Defined.

(** X14, witness: a header and a cell of the field table, pressed and left. *)
Lemma press_then_blur_keeps_table_witness :
  handleCellBlur (handleCellPress true (-1) 1 "Content" (mkEditor None "")) fieldTable
  = (mkEditor None "", Changed fieldTable) /\
  handleCellBlur (handleCellPress true 0 1 "x" (mkEditor None "")) fieldTable
  = (mkEditor None "", Changed fieldTable).
Proof.
  destruct (press_then_blur_keeps_table (mkEditor None "") fieldTable 1 "Content")
    as (Hheader & _ & _).
  destruct (press_then_blur_keeps_table (mkEditor None "") fieldTable 1 "x")
    as (_ & Hcell & _).
  split; [by apply Hheader|]. by apply (Hcell 0 ["k1"; "x"]).
Defined.

(** X15, witness: a third document for the store of the examples. *)
Lemma created_document_is_found_witness :
  exists doc,
    createDocument stored "doc_c" "t1" "C" nameTable None storedDocs
    = (doc, doc :: storedDocs) /\
    getDocument "doc_c" (doc :: storedDocs) = Some doc.
Proof.
  destruct (created_document_is_found stored "doc_c" "t1" "C" nameTable None storedDocs)
    as (doc & Hnew & _ & _ & _ & _ & _ & Hget & _); [done|].
  by exists doc.
Defined.

(** X16, witness: the second document gets a new title. *)
Lemma update_changes_one_document_witness :
  exists docs',
    updateDocument stored "doc_b" (mkUpdates (Some "B2") None None) "t1" storedDocs
    = (Some (mkDocument "doc_b" "B2" (Some "second") fieldTable "t0" "t1"), docs') /\
    getDocument "doc_a" docs' = getDocument "doc_a" storedDocs.
Proof.
  destruct (update_changes_one_document stored "doc_b" (mkUpdates (Some "B2") None None)
              "t1" storedDocs) as [_ H]; [done|].
  destruct (H (mkDocument "doc_b" "B" (Some "second") fieldTable "t0" "t0") eq_refl)
    as (docs' & Hup & _ & _ & _ & _ & _ & Hother).
  exists docs'. split; [exact Hup|]. by apply Hother.
Defined.

(** X17, witness: the first document is deleted. *)
Lemma delete_removes_every_match_witness :
  exists docs',
    deleteDocument stored "doc_a" storedDocs = (true, docs') /\
    getDocument "doc_a" docs' = None.
Proof.
  destruct (delete_removes_every_match stored "doc_a" storedDocs) as [_ H]; [done|].
  destruct (H (mkDocument "doc_a" "A" None smallTable "t0" "t0") eq_refl)
    as (docs' & Hdel & _ & Hgone & _).
  by exists docs'.
Defined.

(** X18, witness: the storage is full; the deletion reports success and the
    list is what it was. *)
Lemma failed_write_is_not_reported_witness :
  deleteDocument storageFull "doc_a" storedDocs = (true, storedDocs).
Proof.
  destruct (failed_write_is_not_reported storageFull TypeError storedDocs) as (_ & _ & H);
    [done|].
  by apply (H "doc_a" (mkDocument "doc_a" "A" None smallTable "t0" "t0")).
Defined.

(** X19, witness: a PNG data URL and the short form. *)
Lemma data_url_round_trip_witness :
  extractBase64Image (units "data:image/png;base64,AAAA") = (units "image/png", units "AAAA") /\
  extractBase64Image (units "base64,AAAA") = (units "image/jpeg", units "AAAA").
Proof.
  destruct (data_url_round_trip (units "image/png") (units "AAAA")) as [Hlong Hshort];
    [done|by repeat constructor|].
  split; [|exact Hshort].
  apply Hlong; [done|by repeat constructor|by repeat constructor].
Defined.

(** X20, witness: a file in a user message is refused, the conversation
    whose tool message carries a file is converted. *)
Lemma split_fails_only_on_files_witness :
  splitGeminiMessages braces [fileMessage] = Raised unsupported /\
  exists split, splitGeminiMessages braces dialogue = Returned split.
Proof.
  split.
  - by apply (split_fails_only_on_files braces [fileMessage]).
  - by apply (split_fails_only_on_files braces dialogue).
Defined.

(** X21, witness: the conversation of the examples. *)
Lemma split_keeps_order_witness :
  exists instruction sent,
    splitGeminiMessages braces dialogue = Returned (instruction, sent) /\
    gemini_role <$> sent = [GeminiUser; GeminiModel; GeminiUser] /\
    (fun c => length (gemini_parts c)) <$> sent = [2; 1; 1] /\
    length (default [] instruction) = 1.
Proof.
  epose proof (split_keeps_order braces dialogue _ _ eq_refl) as (Hroles & Hparts & Hsys & _).
  eexists _, _. split; [reflexivity|]. split; [exact Hroles|]. split; [exact Hparts|exact Hsys].
Defined.

(** X22, witness: no key in the environment, and a [fetch] that would
    answer. *)
Lemma missing_key_stops_the_call_witness :
  invokeLLM (mkEnv None None) braces (answering twoPartAnswer) 0 (@chatParams unit "s" "u")
  = Raised (Error "GEMINI_API_KEY is not configured").
Proof. by apply missing_key_stops_the_call. Defined.

(** X23, witness: the three parts of the answer give the text of two
    braces. *)
Lemma answer_is_first_candidate_text_witness :
  (do result <- routerGateway configured braces (answering twoPartAnswer) 0
                  (@chatParams unit "s" "u");
   requireContent result)
  = Returned (units "{}").
Proof.
  exact (answer_is_first_candidate_text configured braces (answering twoPartAnswer) 0
           (@chatParams unit "s" "u") _ _ twoPartAnswer eq_refl eq_refl eq_refl eq_refl).
Defined.

Lemma emptyAnswer_no_text (request : @Request unit) response data :
  answering emptyAnswer request = Returned response -> ok response = true ->
  response_json response = Returned data -> no_text data.
Proof. intros [= <-] _ [= <-] c Hc. discriminate Hc. Qed.

(** X24, witness: Gemini answers without candidates; the search throws. *)
Lemma operations_need_an_answer_witness :
  exists e,
    searchAndFill readJson jsonSearch
      (routerGateway configured braces (answering emptyAnswer) 0)
      (fun _ instruction => @chatParams unit "s" instruction) fieldTable "fill"
    = Raised e.
Proof.
  destruct (operations_need_an_answer configured braces (answering emptyAnswer) 0
              readJson jsonRecognize jsonSearch jsonModify
              (fun image _ => recognizeParams "s" "u" (units image))
              (fun _ instruction => chatParams "s" instruction)
              (fun _ instruction => chatParams "s" instruction)
              emptyAnswer_no_text) as (_ & Hsearch & _).
  apply Hsearch.
Defined.

(** X25, witness: an image of four characters. *)
Lemma recognition_request_witness :
  buildRequest configured braces (@recognizeParams unit "s" "u" (units "AAAA"))
  = Returned
      (mkRequest defaultApiUrl (units "key")
         (mkPayload
            [mkGeminiContent GeminiUser
               [GText "u"; GInlineData (units "image/jpeg") (units "AAAA")]]
            (mkGenerationConfig 32768 None None)
            (Some [GText "s"]) None None)).
Proof.
  pose proof (recognition_request (JSValue := unit) configured braces "s" "u" (units "AAAA")
                (units "key") eq_refl ltac:(done)) as H.
  cbv zeta in H. destruct H as [Hgood _].
  apply Hgood; [done|by repeat constructor].
Defined.

(** X26, witness: an output schema named [table]. *)
Lemma schema_format_reaches_the_request_witness :
  exists request,
    buildRequest configured braces schemaParams = Returned request /\
    responseMimeType (generationConfig (request_body request)) = Some "application/json" /\
    is_Some (responseSchema (generationConfig (request_body request))).
Proof.
  eexists. split; [reflexivity|].
  apply (schema_format_reaches_the_request configured braces schemaParams _ eq_refl).
  right. by split.
Defined.

(** X27, witness: the one tool [lookup] and the choice [required]. *)
Lemma required_choice_names_the_only_tool_witness :
  exists request tool,
    buildRequest configured braces toolParams = Returned request /\
    functionDeclarations (request_body request) = Some [tool] /\
    toolConfig (request_body request) = Some (mkToolConfig ModeAny (Some ["lookup"])).
Proof.
  epose proof (required_choice_names_the_only_tool configured braces toolParams _
                 eq_refl eq_refl) as (tool & Htools & Hdecl & Hconfig).
  eexists _, tool. split; [reflexivity|]. split; [exact Hdecl|].
  injection Htools as <-. exact Hconfig.
Defined.
